(** * gpt_image.py: colour quantisation and the image-to-sequence adapter

    A shallow embedding of the two pieces of [gpt_image.py] that are not
    delegated to the deep-learning framework:

    - [kmeans], the codebook builder (lines 69-82);
    - [ImageDataset], the adapter that turns an image into a sequence of
      codebook indices (lines 21-42), with the few driver lines that build
      the datasets, the model configuration and the inverse permutation.

    Scalars are IEEE-754 binary32 values (torch's default [float]), taken from
    the parameterised specification of the standard library; tensors are
    lists; an index that is out of range, a shape that does not fit and a
    reduction over an empty dimension raise, which is [None] here; the random
    generator is an explicit state. *)

From Stdlib Require Import ZArith List Bool Lia PeanoNat Permutation.
From Stdlib Require Import Sorting.Sorted.
From Stdlib Require Import Floats.SpecFloat.
From Stdlib Require QArith.
Import ListNotations.

Set Implicit Arguments.

(** ** Scalars: binary32 *)

Definition float : Type := spec_float.

Module F32.

Definition prec : Z := 24.
Definition emax : Z := 128.

Definition zero : float := S754_zero false.
Definition nan : float := S754_nan.

Definition add : float -> float -> float := SFadd prec emax.
Definition sub : float -> float -> float := SFsub prec emax.
Definition mul : float -> float -> float := SFmul prec emax.
Definition div : float -> float -> float := SFdiv prec emax.

(** [.float()] of an integer tensor, and the count a mean divides by. *)
Definition of_Z (z : Z) : float := binary_normalize prec emax z 0 false.

Definition isnan (f : float) : bool :=
  match f with S754_nan => true | _ => false end.

Definition ltb : float -> float -> bool := SFltb.
Definition leb : float -> float -> bool := SFleb.

(** [t.sum()] over one dimension: the entries are added to 0 from left to
    right. That is torch's order for a reduction of at most four terms, as
    over the three colour channels of the script; longer reductions are
    added by torch in another order, and no property below depends on the
    value of a longer sum. *)
Definition sum (l : list float) : float := fold_left add l zero.

(** [t ** 2]. *)
Definition sq (f : float) : float := mul f f.

End F32.

(** ** Tensors

    A two-dimensional float tensor of shape [(length data, dim)]: the number
    of columns is kept apart, since a tensor with no row still has one. *)

Record tensor : Type := Tensor { dim : nat; data : list (list float) }.

Definition wf_tensor (t : tensor) : Prop :=
  Forall (fun r => length r = dim t) (data t).

Definition row_nan (r : list float) : bool := existsb F32.isnan r.

Definition nan_free (t : tensor) : Prop :=
  Forall (fun r => row_nan r = false) (data t).

(** [torch.arange(n)] *)
Definition arange (n : nat) : list Z := map Z.of_nat (seq 0 n).

(** [l[i]] for one integer index: negative indices count from the end, and
    an index outside [-len, len) raises. *)
Definition index1 (A : Type) (l : list A) (i : Z) : option A :=
  let n := Z.of_nat (length l) in
  if (0 <=? i)%Z then nth_error l (Z.to_nat i)
  else if (- n <=? i)%Z then nth_error l (Z.to_nat (n + i))
  else None.

(** A fallible function over every entry; the first failure raises. *)
Fixpoint mapM (A B : Type) (f : A -> option B) (l : list A)
  : option (list B) :=
  match l with
  | [] => Some []
  | a :: l' =>
      match f a, mapM f l' with
      | Some b, Some r => Some (b :: r)
      | _, _ => None
      end
  end.

(** [l[idx]] for a tensor of indices: one entry per index. *)
Definition gather (A : Type) (l : list A) (idx : list Z) : option (list A) :=
  mapM (index1 l) idx.

(** [t.view(-1, 3)] of a flat tensor: rows of three entries; raises when the
    number of entries is not a multiple of three. *)
Fixpoint view3 (A : Type) (l : list A) : option (list (list A)) :=
  match l with
  | [] => Some []
  | r :: g :: b :: l' => option_map (cons [r; g; b]) (view3 l')
  | _ => None
  end.

(** ** Nearest codebook entry

    [((x[:, None, :] - c[None, :, :])**2).sum(-1).argmin(1)] *)

(** The last dimensions [dx] and [dc] broadcast when they agree or one of
    them is 1. *)
Definition broadcastable (dx dc : nat) : bool :=
  (dx =? dc) || (dx =? 1) || (dc =? 1).

Fixpoint map2 (A B C : Type) (f : A -> B -> C) (u : list A) (v : list B)
  : list C :=
  match u, v with
  | a :: u', b :: v' => f a b :: map2 f u' v'
  | _, _ => []
  end.

(** One row minus one row, under broadcasting of a row of length 1. *)
Definition bsub (u v : list float) : list float :=
  if length u =? length v then map2 F32.sub u v
  else match u, v with
       | [a], _ => map (F32.sub a) v
       | _, [b] => map (fun a => F32.sub a b) u
       | _, _ => []
       end.

(** Squared Euclidean distance of a sample to a codebook entry. *)
Definition sqdist (xr cr : list float) : float :=
  F32.sum (map F32.sq (bsub xr cr)).

(** The [(N, K)] matrix of squared distances. *)
Definition sqdist_matrix (x c : tensor) : option (list (list float)) :=
  if broadcastable (dim x) (dim c)
  then Some (map (fun xr => map (sqdist xr) (data c)) (data x))
  else None.

(** The order of torch's [argmin]: [a] goes before [b] when [a] is NaN and
    [b] is not, or when [a < b]. *)
Definition less_or_nan (a b : float) : bool :=
  (F32.isnan a && negb (F32.isnan b)) || F32.ltb a b.

(** Scan of one row, left to right: [best] is the value at index [bi], the
    next entry has index [i]; a later entry replaces the best one only when
    it goes strictly before it, so the first of equal entries is kept. *)
Fixpoint argmin_from (best : float) (bi i : nat) (l : list float) : nat :=
  match l with
  | [] => bi
  | d :: l' =>
      if less_or_nan d best then argmin_from d i (S i) l'
      else argmin_from best bi (S i) l'
  end.

(** [argmin] of one row; a row with no entry raises. *)
Definition argmin_row (l : list float) : option nat :=
  match l with
  | [] => None
  | d :: l' => Some (argmin_from d 0 1 l')
  end.

(** [m.argmin(1)] of an [(N, K)] matrix: the reduced dimension must not be
    empty, whatever [N] is. *)
Definition argmin1 (K : nat) (m : list (list float)) : option (list nat) :=
  if K =? 0 then None else mapM argmin_row m.

(** The nearest-codebook-index lookup of [x] in the codebook [c]. *)
Definition nearest (x c : tensor) : option (list nat) :=
  match sqdist_matrix x c with
  | Some m => argmin1 (length (data c)) m
  | None => None
  end.

(** ** The random generator and the monad of the script

    [torch.randperm] reads and advances the global generator. The state is
    the stream of the outcomes still to come; a computation gets a state and
    raises or returns a value and the state it leaves. *)

Definition rng : Type := nat -> list Z.

Definition M (A : Type) : Type := rng -> option (A * rng).

Definition ret (A : Type) (a : A) : M A := fun g => Some (a, g).

Definition bind (A B : Type) (m : M A) (f : A -> M B) : M B :=
  fun g => match m g with
           | Some (a, g') => f a g'
           | None => None
           end.

Definition lift (A : Type) (o : option A) : M A :=
  fun g => match o with
           | Some a => Some (a, g)
           | None => None
           end.

Notation "x <- m ;; k" := (bind m (fun x => k))
  (at level 61, m at next level, right associativity).

(** [torch.randperm(n)]: the next outcome of the generator. *)
Definition randperm (n : nat) : M (list Z) :=
  fun g => Some (g 0, fun j => g (S j)).

(** The generator is sound for [n] when every outcome is a permutation of
    [0 .. n-1]. *)
Definition rng_ok (n : nat) (g : rng) : Prop :=
  forall j, Permutation (g j) (arange n).

(** ** The codebook builder: [kmeans] (lines 69-82) *)

(** [x[a == k]]: the rows of [x] whose assignment is [k]. *)
Definition select (x : list (list float)) (a : list nat) (k : nat)
  : list (list float) :=
  map fst (filter (fun ra => snd ra =? k) (combine x a)).

(** [t.mean(0)] of an [(m, D)] tensor: per column, the sum over the rows
    divided by [m]; with no row every column is 0/0. *)
Definition mean0 (D : nat) (rows : list (list float)) : list float :=
  map (fun j => F32.div (F32.sum (map (fun r => nth j r F32.zero) rows))
                        (F32.of_Z (Z.of_nat (length rows))))
      (seq 0 D).

(** [torch.stack] of [D]-vectors: an empty list of tensors raises. *)
Definition stack (D : nat) (rows : list (list float)) : option tensor :=
  match rows with
  | [] => None
  | _ => Some (Tensor D rows)
  end.

(** [torch.any(torch.isnan(c), dim=1)] *)
Definition nanix (c : tensor) : list bool := map row_nan (data c).

(** [mask.sum().item()] *)
Definition count_true (mask : list bool) : nat :=
  length (filter (fun b => b) mask).

(** The rows of [rows] under [mask] take the values [vals], in order. *)
Fixpoint masked_put (A : Type) (rows : list A) (mask : list bool)
  (vals : list A) : list A :=
  match rows, mask with
  | r :: rows', true :: mask' =>
      match vals with
      | v :: vals' => v :: masked_put rows' mask' vals'
      | [] => r :: masked_put rows' mask' []
      end
  | r :: rows', false :: mask' => r :: masked_put rows' mask' vals
  | _, _ => rows
  end.

(** [c[mask] = vals]: [vals] has one row per selected row of [c], or one
    row, which is then broadcast; any other number of rows raises. *)
Definition masked_assign (c : tensor) (mask : list bool)
  (vals : list (list float)) : option tensor :=
  let n := count_true mask in
  if length vals =? n then Some (Tensor (dim c) (masked_put (data c) mask vals))
  else match vals with
       | [v] => Some (Tensor (dim c) (masked_put (data c) mask (repeat v n)))
       | _ => None
       end.

(** Line 74: every sample goes to its nearest centre. *)
Definition assign (x c : tensor) : option (list nat) := nearest x c.

(** Line 76: every centre moves to the mean of its samples. *)
Definition recompute (x : tensor) (a : list nat) (ncluster : nat)
  : option tensor :=
  stack (dim x) (map (fun k => mean0 (dim x) (select (data x) a k))
                     (seq 0 ncluster)).

(** Lines 78-81: the centres with a NaN are re-initialised from a fresh
    sample of the input. *)
Definition reseed (x c : tensor) : M tensor :=
  let nanix := nanix c in
  let ndead := count_true nanix in
  p <- randperm (length (data x)) ;;
  v <- lift (gather (data x) (firstn ndead p)) ;;
  lift (masked_assign c nanix v).

(** One pass of the loop body. *)
Definition kmeans_iter (x : tensor) (ncluster : nat) (c : tensor) : M tensor :=
  a <- lift (assign x c) ;;
  c <- lift (recompute x a ncluster) ;;
  reseed x c.

Fixpoint kmeans_loop (x : tensor) (ncluster niter : nat) (c : tensor)
  : M tensor :=
  match niter with
  | 0 => ret c
  | S niter' => c' <- kmeans_iter x ncluster c ;; kmeans_loop x ncluster niter' c'
  end.

Definition kmeans (x : tensor) (ncluster niter : nat) : M tensor :=
  p <- randperm (length (data x)) ;;
  c <- lift (gather (data x) (firstn ncluster p)) ;;
  kmeans_loop x ncluster niter (Tensor (dim x) c).

(** ** The adapter: [ImageDataset] (lines 21-42) *)

(** An image of the base dataset is the flat [uint8] array of its
    height x width x 3 entries; an item is an image and its label. *)
Definition image : Type := list Z.
Definition base_dataset : Type := list (image * Z).

Record ImageDataset : Type := MkImageDataset {
  pt_dataset : base_dataset;
  clusters : tensor;
  perm : list Z;
  vocab_size : nat;
  block_size : nat
}.

(** [__init__] *)
Definition ImageDataset_init (pt : base_dataset) (c : tensor)
  (p : option (list Z)) : ImageDataset :=
  {| pt_dataset := pt;
     clusters := c;
     perm := match p with None => arange (32 * 32) | Some p' => p' end;
     vocab_size := length (data c);
     block_size := 32 * 32 - 1 |}.

(** [__len__] *)
Definition ImageDataset_len (ds : ImageDataset) : nat :=
  length (pt_dataset ds).

(** Lines 38-41: the whole index sequence [a] of item [idx]. *)
Definition encode (ds : ImageDataset) (idx : Z) : M (list nat) :=
  xy <- lift (index1 (pt_dataset ds) idx) ;;
  x <- lift (view3 (fst xy)) ;;
  x <- lift (gather x (perm ds)) ;;
  let x := Tensor 3 (map (map F32.of_Z) x) in
  lift (nearest x (clusters ds)).

(** [__getitem__]: [a[:-1], a[1:]] *)
Definition ImageDataset_getitem (ds : ImageDataset) (idx : Z)
  : M (list nat * list nat) :=
  a <- encode ds idx ;;
  ret (removelast a, tl a).

(** ** The driver lines that use the adapter *)

(** The arguments of [GPTConfig] that come from the adapter. *)
Record GPTConfig : Type := MkGPTConfig {
  cfg_vocab_size : nat;
  cfg_block_size : nat
}.

(** Lines 115-117 *)
Definition mconf (train_dataset : ImageDataset) : GPTConfig :=
  MkGPTConfig (vocab_size train_dataset) (block_size train_dataset).

(** Lines 84-86 and 110-117: the codebook is fitted on the pixel sample
    [px], then both datasets are wrapped with it and the model is
    configured from the training one. *)
Definition driver (train_data test_data : base_dataset) (px : tensor)
  : M (ImageDataset * ImageDataset * GPTConfig) :=
  C <- kmeans px 512 8 ;;
  let train_dataset := ImageDataset_init train_data C None in
  let test_dataset := ImageDataset_init test_data C None in
  ret (train_dataset, test_dataset, mconf train_dataset).

(** [torch.sort] of a one-dimensional integer tensor: the values in
    ascending order and, for each, the index it came from. *)
Fixpoint insert_key (p : Z * Z) (l : list (Z * Z)) : list (Z * Z) :=
  match l with
  | [] => [p]
  | q :: l' => if (fst p <=? fst q)%Z then p :: l else q :: insert_key p l'
  end.

Definition sort_keyed (l : list (Z * Z)) : list (Z * Z) :=
  fold_right insert_key [] l.

Definition torch_sort (v : list Z) : list Z * list Z :=
  let s := sort_keyed (combine v (arange (length v))) in
  (map fst s, map snd s).

(** [torch.argsort(v)] *)
Definition argsort (v : list Z) : list Z := snd (torch_sort v).

(** Line 149 *)
Definition iperm (train_dataset : ImageDataset) : list Z :=
  argsort (perm train_dataset).

(** Line 155: [pixels[i][iperm]] *)
Definition decode (A : Type) (train_dataset : ImageDataset) (pixels : list A)
  : option (list A) :=
  gather pixels (iperm train_dataset).

(** ** The order behind [argmin]

    A float is ranked by its class, then its exponent, then its mantissa;
    NaN is ranked below every number, as [less_or_nan] has it. *)

Definition key (f : float) : Z * Z * Z :=
  match f with
  | S754_nan => (-3, 0, 0)
  | S754_infinity true => (-2, 0, 0)
  | S754_finite true m e => (-1, - e, Z.neg m)
  | S754_zero _ => (0, 0, 0)
  | S754_finite false m e => (1, e, Z.pos m)
  | S754_infinity false => (2, 0, 0)
  end%Z.

Definition key_lt (a b : Z * Z * Z) : Prop :=
  let '(a1, a2, a3) := a in
  let '(b1, b2, b3) := b in
  (a1 < b1 \/ (a1 = b1 /\ (a2 < b2 \/ (a2 = b2 /\ a3 < b3))))%Z.

(** The order [torch_sort] sorts by. *)
Definition key_le (p q : Z * Z) : Prop := (fst p <= fst q)%Z.

(** ** Distances of colours, computed and exact *)

(** The squared distance of two colours as the lookup computes it in
    binary32: every difference, every square and both sums are rounded. *)
Definition sqdist_rgb (p q : list float) : float :=
  match p, q with
  | [p0; p1; p2], [q0; q1; q2] =>
      F32.add (F32.add (F32.sq (F32.sub p0 q0)) (F32.sq (F32.sub p1 q1)))
              (F32.sq (F32.sub p2 q2))
  | _, _ => F32.nan
  end.

(** The exact value of a finite float, a rational number. *)
Definition float_value (f : float) : option QArith_base.Q :=
  match f with
  | S754_zero _ => Some (QArith_base.inject_Z 0)
  | S754_finite s m e =>
      Some (QArith_base.Qmult
              (QArith_base.inject_Z (if s then Z.neg m else Z.pos m))
              (QArith_base.Qpower (QArith_base.inject_Z 2) e))
  | _ => None
  end.

(** The squared Euclidean distance in the spec's words: the sum of the
    squared differences of the coordinates, over their exact values. *)
Fixpoint sqdist_exact (p q : list float) : option QArith_base.Q :=
  match p, q with
  | [], [] => Some (QArith_base.inject_Z 0)
  | a :: p', b :: q' =>
      match float_value a, float_value b, sqdist_exact p' q' with
      | Some va, Some vb, Some r =>
          Some (QArith_base.Qplus
                  (QArith_base.Qmult (QArith_base.Qminus va vb)
                                     (QArith_base.Qminus va vb))
                  r)
      | _, _, _ => None
      end
  | _, _ => None
  end.

(** A black pixel and two nearly equal colours: the third channel of the
    first is 255 + 2^-16, that of the second is 255. *)
Definition ex_black : list float := [F32.of_Z 0; F32.of_Z 0; F32.of_Z 0].

Definition ex_white_above : list float :=
  [F32.of_Z 255; F32.of_Z 255; S754_finite false 16711681 (-16)].

Definition ex_white : list float :=
  [F32.of_Z 255; F32.of_Z 255; F32.of_Z 255].

(** ** Sample data

    Three one-dimensional samples and a generator that always draws the same
    permutation of three positions. *)

Definition ex_x : tensor :=
  Tensor 1 [[F32.of_Z 0]; [F32.of_Z 1]; [F32.of_Z 10]].

Definition ex_rng : rng := fun _ => [1; 0; 2]%Z.

(** A 32x32 image whose bytes count up modulo 256, a codebook of two
    colours, and a base dataset with that one image. *)

Definition ex_image : image := map (fun z => z mod 256)%Z (arange (32 * 32 * 3)).

Definition ex_codebook : tensor :=
  Tensor 3 [[F32.of_Z 0; F32.of_Z 0; F32.of_Z 0];
            [F32.of_Z 255; F32.of_Z 255; F32.of_Z 255]].

Definition ex_base : base_dataset := [(ex_image, 3%Z)].

(** ** The pixel sample of the driver (lines 63-65) *)

(** [t.view(n, 3)]: raises unless the tensor has exactly [3 n] entries. *)
Definition view_rows (A : Type) (n : nat) (l : list A)
  : option (list (list A)) :=
  match view3 l with
  | Some r => if length r =? n then Some r else None
  | None => None
  end.

(** [pluck_rgb]: five pixels of an image, at the first five positions of a
    fresh permutation. *)
Definition pluck_rgb (x : image) : M (list (list Z)) :=
  v <- lift (view_rows (32 * 32) x) ;;
  p <- randperm (32 * 32) ;;
  lift (gather v (firstn 5 p)).

(** A computation of the script over every entry of a list, in order. *)
Fixpoint mapM_M (A B : Type) (f : A -> M B) (l : list A) : M (list B) :=
  match l with
  | [] => ret []
  | a :: l' => b <- f a ;; r <- mapM_M f l' ;; ret (b :: r)
  end.

(** [torch.cat(ts, dim=0)]: an empty list of tensors raises. *)
Definition cat (A : Type) (ts : list (list A)) : option (list A) :=
  match ts with
  | [] => None
  | _ => Some (concat ts)
  end.

(** Line 65: [px] *)
Definition pixel_sample (train_data : base_dataset) : M tensor :=
  ts <- mapM_M (fun xy => pluck_rgb (fst xy)) train_data ;;
  px <- lift (cat ts) ;;
  ret (Tensor 3 (map (map F32.of_Z) px)).

(** Lines 64-86 and 110-117 in one run: the pixel sample is drawn from the
    training data and handed to the rest of the driver. *)
Definition main (train_data test_data : base_dataset)
  : M (ImageDataset * ImageDataset * GPTConfig) :=
  px <- pixel_sample train_data ;;
  driver train_data test_data px.

(** Lines 100-105: an image is encoded with the codebook [C] and decoded
    again, [C[ix]], for the preview. *)
Definition reconstruct (C : tensor) (x : image) : option (list (list float)) :=
  match view_rows (32 * 32) x with
  | Some v =>
      match nearest (Tensor 3 (map (map F32.of_Z) v)) C with
      | Some ix => gather (data C) (map Z.of_nat ix)
      | None => None
      end
  | None => None
  end.

(** ** The histogram of the first token (lines 134-140) *)

Fixpoint set_nth (A : Type) (l : list A) (n : nat) (a : A) : list A :=
  match l, n with
  | [], _ => []
  | _ :: l', 0 => a :: l'
  | b :: l', S n' => b :: set_nth l' n' a
  end.

(** [counts[t] += 1]: an index past the end raises. *)
Definition bump (counts : list float) (t : nat) : option (list float) :=
  match nth_error counts t with
  | Some c => Some (set_nth counts t (F32.add c (F32.of_Z 1)))
  | None => None
  end.

(** The loop of lines 137-140 over the values [ixs] of [i]. *)
Fixpoint count_first_tokens (train_dataset : ImageDataset) (rp : list Z)
  (ixs : list nat) (counts : list float) : M (list float) :=
  match ixs with
  | [] => ret counts
  | i :: ixs' =>
      idx <- lift (nth_error rp i) ;;
      item <- ImageDataset_getitem train_dataset idx ;;
      t <- lift (hd_error (fst item)) ;;
      counts' <- lift (bump counts t) ;;
      count_first_tokens train_dataset rp ixs' counts'
  end.

(** Lines 134-140: [counts] starts at one everywhere (smoothing) and the
    first token of [nest] items, in the order of a fresh permutation, is
    counted. *)
Definition first_token_counts (train_dataset : ImageDataset)
  (ncluster nest : nat) : M (list float) :=
  let counts := repeat (F32.of_Z 1) ncluster in
  rp <- randperm (ImageDataset_len train_dataset) ;;
  count_first_tokens train_dataset rp (seq 0 nest) counts.

(** [t] is the first token of the item that the loop reads at step [i]. *)
Definition first_token_of (train_dataset : ImageDataset) (rp : list Z)
  (g : rng) (i t : nat) : Prop :=
  exists idx inp tgt,
    nth_error rp i = Some idx /\
    ImageDataset_getitem train_dataset idx g = Some ((inp, tgt), g) /\
    hd_error inp = Some t.

(** Equality of floats is decidable. *)
Definition float_eq_dec (a b : float) : {a = b} + {a <> b}.
Proof.
  unfold float in *.
  decide equality; auto using Bool.bool_dec, Pos.eq_dec, Z.eq_dec.
Defined.

(** A byte of a [uint8] image. *)
Definition uint8 (z : Z) : Prop := (0 <= z < 256)%Z.

(** An image of 32x32 pixels of three [uint8] channels. *)
Definition wf_image (x : image) : Prop :=
  length x = 3 * (32 * 32) /\ Forall uint8 x.

(** A generator that always draws the reversed order of the 1024 pixel
    positions; a training set of 103 copies of the sample image; and a
    generator for a whole run over it: permutations of the 1024 positions
    for the 103 images, then permutations of the 515 sampled pixels. *)

Definition ex_rng1024 : rng := fun _ => rev (arange (32 * 32)).

Definition ex_train : base_dataset := repeat (ex_image, 3%Z) 103.

Definition ex_rng_main : rng :=
  fun j => if j <? 103 then rev (arange (32 * 32)) else rev (arange 515).

(** * Properties *)

(** ** The monad *)

Lemma bind_Some (A B : Type) (m : M A) (f : A -> M B) g b g' :
  bind m f g = Some (b, g') ->
  exists a g1, m g = Some (a, g1) /\ f a g1 = Some (b, g').
Proof.
  unfold bind. destruct (m g) as [[a g1]|]; [|discriminate].
  intros H. now exists a, g1.
Qed.

Lemma lift_Some (A : Type) (o : option A) g a g' :
  lift o g = Some (a, g') -> o = Some a /\ g' = g.
Proof.
  unfold lift. destruct o; [|discriminate].
  intros H. injection H as -> ->. now split.
Qed.

(** ** Lists, indices and [mapM] *)

Section MapM.

Variables A B : Type.
Variable f : A -> option B.

Lemma mapM_Forall2 (l : list A) : forall r,
  mapM f l = Some r -> Forall2 (fun a b => f a = Some b) l r.
Proof.
  induction l as [|a l IH]; simpl; intros r H.
  - injection H as <-. constructor.
  - destruct (f a) as [b|] eqn:Ea; [|discriminate].
    destruct (mapM f l) as [r'|]; [|discriminate].
    injection H as <-. constructor; auto.
Qed.

Lemma mapM_length (l : list A) r : mapM f l = Some r -> length r = length l.
Proof.
  intros H. apply mapM_Forall2 in H. symmetry. eapply Forall2_length, H.
Qed.

Lemma mapM_nth_error (l : list A) : forall r j b,
  mapM f l = Some r -> nth_error r j = Some b ->
  exists a, nth_error l j = Some a /\ f a = Some b.
Proof.
  intros r j b H. apply mapM_Forall2 in H. revert j.
  induction H as [|a b' l r Hab H IH]; intros [|j] Hj; simpl in *;
    try discriminate.
  - injection Hj as <-. now exists a.
  - now apply IH.
Qed.

Lemma mapM_nth_error_src (l : list A) : forall r j a,
  mapM f l = Some r -> nth_error l j = Some a ->
  exists b, nth_error r j = Some b /\ f a = Some b.
Proof.
  intros r j a H. apply mapM_Forall2 in H. revert j.
  induction H as [|a' b l r Hab H IH]; intros [|j] Hj; simpl in *;
    try discriminate.
  - injection Hj as <-. now exists b.
  - now apply IH.
Qed.

Lemma mapM_total (l : list A) :
  Forall (fun a => exists b, f a = Some b) l -> exists r, mapM f l = Some r.
Proof.
  induction 1 as [|a l [b Hb] _ [r Hr]]; simpl.
  - now exists [].
  - rewrite Hb, Hr. now exists (b :: r).
Qed.

End MapM.

Lemma arange_length n : length (arange n) = n.
Proof. unfold arange. now rewrite length_map, length_seq. Qed.

Lemma arange_nth_error n j :
  j < n -> nth_error (arange n) j = Some (Z.of_nat j).
Proof.
  intros H. unfold arange. rewrite nth_error_map, nth_error_seq.
  destruct (Nat.ltb_spec j n); [reflexivity | lia].
Qed.

Lemma arange_In n z : In z (arange n) <-> (0 <= z < Z.of_nat n)%Z.
Proof.
  unfold arange. rewrite in_map_iff. split.
  - intros [j [<- Hj]]. apply in_seq in Hj. lia.
  - intros H. exists (Z.to_nat z). split; [lia|]. apply in_seq. lia.
Qed.

Lemma index1_of_nat (A : Type) (l : list A) j :
  index1 l (Z.of_nat j) = nth_error l j.
Proof.
  unfold index1. destruct (Z.leb_spec 0 (Z.of_nat j)); [|lia].
  now rewrite Nat2Z.id.
Qed.

Lemma index1_In (A : Type) (l : list A) i a : index1 l i = Some a -> In a l.
Proof.
  unfold index1. destruct (0 <=? i)%Z.
  - apply nth_error_In.
  - destruct (- Z.of_nat (length l) <=? i)%Z; [apply nth_error_In | discriminate].
Qed.

Lemma index1_range (A : Type) (l : list A) i :
  (0 <= i < Z.of_nat (length l))%Z -> exists a, index1 l i = Some a.
Proof.
  intros H. replace i with (Z.of_nat (Z.to_nat i)) by lia.
  rewrite index1_of_nat.
  destruct (nth_error l (Z.to_nat i)) as [a|] eqn:E; [now exists a|].
  apply nth_error_None in E. lia.
Qed.

Lemma gather_length (A : Type) (l : list A) idx r :
  gather l idx = Some r -> length r = length idx.
Proof. apply mapM_length. Qed.

Lemma gather_In (A : Type) (l : list A) idx r :
  gather l idx = Some r -> Forall (fun a => In a l) r.
Proof.
  intros H. apply mapM_Forall2 in H.
  induction H as [|i a idx r Hi _ IH]; constructor; auto.
  eapply index1_In, Hi.
Qed.

Lemma gather_total (A : Type) (l : list A) idx :
  Forall (fun i => 0 <= i < Z.of_nat (length l))%Z idx ->
  exists r, gather l idx = Some r.
Proof.
  intros H. apply mapM_total. eapply Forall_impl; [|exact H].
  intros i. apply index1_range.
Qed.

(** ** The order of [argmin] *)

Lemma ltb_key a b :
  F32.isnan a = false -> F32.isnan b = false ->
  F32.ltb a b = true <-> key_lt (key a) (key b).
Proof.
  unfold F32.ltb, SFltb, key_lt.
  destruct a as [sa|sa| |sa ma ea], b as [sb|sb| |sb mb eb];
    try discriminate; intros _ _; simpl;
    try destruct sa; try destruct sb; simpl;
    try (split; [discriminate | lia]);
    try (split; [lia | reflexivity]).
  - rewrite Pos.compare_cont_spec; simpl.
    destruct (Z.compare_spec ea eb), (Pos.compare_spec ma mb); simpl;
      split; try discriminate; try reflexivity; lia.
  - rewrite Pos.compare_cont_spec; simpl.
    destruct (Z.compare_spec ea eb), (Pos.compare_spec ma mb); simpl;
      split; try discriminate; try reflexivity; lia.
Qed.

Lemma leb_key a b :
  F32.isnan a = false -> F32.isnan b = false ->
  F32.leb a b = true <-> ~ key_lt (key b) (key a).
Proof.
  unfold F32.leb, SFleb, key_lt.
  destruct a as [sa|sa| |sa ma ea], b as [sb|sb| |sb mb eb];
    try discriminate; intros _ _; simpl;
    try destruct sa; try destruct sb; simpl;
    try (split; [intros _; lia | reflexivity]);
    try (split; [discriminate | lia]).
  - rewrite Pos.compare_cont_spec; simpl.
    destruct (Z.compare_spec ea eb), (Pos.compare_spec ma mb); simpl;
      split; try discriminate; try reflexivity; lia.
  - rewrite Pos.compare_cont_spec; simpl.
    destruct (Z.compare_spec ea eb), (Pos.compare_spec ma mb); simpl;
      split; try discriminate; try reflexivity; lia.
Qed.

Lemma key_nan_least a : F32.isnan a = false -> key_lt (key F32.nan) (key a).
Proof.
  destruct a as [s|s| |s m e]; try discriminate; intros _;
    try destruct s; simpl; lia.
Qed.

Lemma less_or_nan_key a b :
  less_or_nan a b = true <-> key_lt (key a) (key b).
Proof.
  unfold less_or_nan.
  destruct (F32.isnan a) eqn:Ea, (F32.isnan b) eqn:Eb; simpl.
  - destruct a; try discriminate. destruct b; try discriminate.
    simpl. split; [discriminate | lia].
  - destruct a; try discriminate. split; [|reflexivity].
    intros _. now apply key_nan_least.
  - destruct b; try discriminate.
    apply key_nan_least in Ea. unfold key_lt in *. simpl in *.
    destruct (key a) as [[a1 a2] a3].
    replace (F32.ltb a S754_nan) with false by (now destruct a).
    split; [discriminate | lia].
  - now apply ltb_key.
Qed.

Lemma key_lt_irrefl k : ~ key_lt k k.
Proof. destruct k as [[k1 k2] k3]. simpl. lia. Qed.

Lemma key_lt_split a b c : key_lt a b -> key_lt a c \/ key_lt c b.
Proof.
  destruct a as [[a1 a2] a3], b as [[b1 b2] b3], c as [[c1 c2] c3].
  simpl. lia.
Qed.

Lemma key_lt_asym a b : key_lt a b -> ~ key_lt b a.
Proof.
  destruct a as [[a1 a2] a3], b as [[b1 b2] b3]. simpl. lia.
Qed.

Lemma less_or_nan_false a b :
  less_or_nan a b = false <-> ~ key_lt (key a) (key b).
Proof.
  rewrite <- less_or_nan_key. destruct (less_or_nan a b); split; auto;
    try discriminate. intros H. now contradiction H.
Qed.

(** The scan keeps, among the entries seen, the first one that no other
    entry goes before. [pre] are the entries already seen. *)
Lemma argmin_from_spec (l : list float) : forall pre best bi,
  bi < length pre ->
  nth bi pre F32.zero = best ->
  (forall j, j < length pre -> less_or_nan (nth j pre F32.zero) best = false) ->
  (forall j, j < bi -> less_or_nan best (nth j pre F32.zero) = true) ->
  let r := argmin_from best bi (length pre) l in
  let d := fun j => nth j (pre ++ l) F32.zero in
  r < length (pre ++ l) /\
  (forall j, j < length (pre ++ l) -> less_or_nan (d j) (d r) = false) /\
  (forall j, j < r -> less_or_nan (d r) (d j) = true).
Proof.
  induction l as [|x l IH]; intros pre best bi Hbi Hbest Hmin Hfirst; simpl.
  - rewrite app_nil_r. rewrite Hbest. auto.
  - assert (Hlen : length (pre ++ [x]) = S (length pre))
      by (rewrite length_app; simpl; lia).
    replace (pre ++ x :: l) with ((pre ++ [x]) ++ l)
      by (now rewrite <- app_assoc).
    destruct (less_or_nan x best) eqn:Hx.
    + rewrite <- Hlen. apply IH.
      * lia.
      * rewrite app_nth2 by lia. now rewrite Nat.sub_diag.
      * intros j Hj. rewrite Hlen in Hj.
        apply less_or_nan_false. apply less_or_nan_key in Hx.
        destruct (Nat.eq_dec j (length pre)) as [->|Hne].
        -- rewrite app_nth2 by lia. rewrite Nat.sub_diag. simpl.
           apply key_lt_irrefl.
        -- rewrite app_nth1 by lia.
           assert (Hj' : j < length pre) by lia.
           apply Hmin, less_or_nan_false in Hj'.
           intros Hc. destruct (key_lt_split _ _ (key best) Hc); auto.
           eapply key_lt_asym; eauto.
      * intros j Hj. rewrite app_nth1 by lia.
        apply less_or_nan_key. apply less_or_nan_key in Hx.
        assert (Hj' : j < length pre) by lia.
        apply Hmin, less_or_nan_false in Hj'.
        destruct (key_lt_split _ _ (key (nth j pre F32.zero)) Hx); tauto.
    + rewrite <- Hlen. apply IH.
      * lia.
      * rewrite app_nth1 by lia. exact Hbest.
      * intros j Hj. rewrite Hlen in Hj.
        destruct (Nat.eq_dec j (length pre)) as [->|Hne].
        -- rewrite app_nth2 by lia. rewrite Nat.sub_diag. exact Hx.
        -- rewrite app_nth1 by lia. apply Hmin. lia.
      * intros j Hj. rewrite app_nth1 by lia. now apply Hfirst.
Qed.

Lemma argmin_row_spec (l : list float) i :
  argmin_row l = Some i ->
  let d := fun j => nth j l F32.zero in
  i < length l /\
  (forall j, j < length l -> less_or_nan (d j) (d i) = false) /\
  (forall j, j < i -> less_or_nan (d i) (d j) = true).
Proof.
  destruct l as [|x l]; simpl; [discriminate|].
  intros H. injection H as <-.
  apply (@argmin_from_spec l [x] x 0); simpl; auto.
  - intros [|j] Hj; [|lia]. apply less_or_nan_false, key_lt_irrefl.
  - intros j Hj. lia.
Qed.

(** ** The nearest-codebook-index lookup *)

Lemma nearest_rows (x c : tensor) (a : list nat) :
  nearest x c = Some a ->
  length a = length (data x) /\
  forall n i, nth_error a n = Some i ->
    exists xr, nth_error (data x) n = Some xr /\
               argmin_row (map (sqdist xr) (data c)) = Some i.
Proof.
  unfold nearest, sqdist_matrix, argmin1.
  destruct (broadcastable (dim x) (dim c)); [|discriminate].
  destruct (length (data c) =? 0); [discriminate|].
  intros H. split.
  - apply mapM_length in H. now rewrite length_map in H.
  - intros n i Hn.
    destruct (mapM_nth_error _ _ _ H Hn) as [row [Hrow Hi]].
    rewrite nth_error_map in Hrow.
    destruct (nth_error (data x) n) as [xr|]; [|discriminate].
    injection Hrow as <-. now exists xr.
Qed.

(** The lookup against the distance [sqdist] of the model, for any
    dimension. *)
Lemma nearest_first_argmin_sqdist (x c : tensor) (a : list nat) :
  nearest x c = Some a ->
  length a = length (data x) /\
  forall n i, nth_error a n = Some i ->
    exists xr, nth_error (data x) n = Some xr /\
      let K := length (data c) in
      let d := fun k => sqdist xr (nth k (data c) []) in
      i < K /\
      (forall k, k < K -> less_or_nan (d k) (d i) = false) /\
      (forall k, k < i -> less_or_nan (d i) (d k) = true) /\
      ((forall k, k < K -> F32.isnan (d k) = false) ->
       (forall k, k < K -> F32.leb (d i) (d k) = true) /\
       (forall k, k < i -> F32.ltb (d i) (d k) = true)).
Proof.
  intros H. destruct (nearest_rows _ _ H) as [Hlen Hrows]. split; [exact Hlen|].
  intros n i Hn. destruct (Hrows n i Hn) as [xr [Hxr Harg]].
  exists xr. split; [exact Hxr|]. intros K d.
  apply argmin_row_spec in Harg. rewrite length_map in Harg.
  destruct Harg as [Hi [Hmin Hfirst]].
  assert (Hd : forall k, k < K ->
            nth k (map (sqdist xr) (data c)) F32.zero = d k).
  { intros k Hk. unfold d.
    rewrite (nth_indep _ F32.zero (sqdist xr [])) by (now rewrite length_map).
    apply map_nth. }
  assert (Hmin' : forall k, k < K -> less_or_nan (d k) (d i) = false).
  { intros k Hk. rewrite <- (Hd k Hk), <- (Hd i Hi). now apply Hmin. }
  assert (Hfirst' : forall k, k < i -> less_or_nan (d i) (d k) = true).
  { intros k Hk. rewrite <- (Hd k), <- (Hd i Hi) by (unfold K; lia).
    now apply Hfirst. }
  repeat split; auto.
  - intros k Hk. apply leb_key; auto. apply less_or_nan_false. auto.
  - intros k Hk. apply ltb_key; auto.
    + apply H0. unfold K in *. lia.
    + apply less_or_nan_key. auto.
Qed.

Lemma add_zero_sq (y : float) : F32.add F32.zero (F32.sq y) = F32.sq y.
Proof.
  assert (H : forall z, z <> S754_zero true -> F32.add F32.zero z = z).
  { intros [[|]| | |] Hz; try reflexivity. now contradiction Hz. }
  apply H. unfold F32.sq, F32.mul, SFmul.
  destruct y as [s|s| |s m e]; try discriminate.
  - now destruct s.
  - unfold binary_round_aux.
    destruct (shr_fexp _ _ _ _ _) as [mrs1 e1].
    destruct (shr_fexp _ _ _ _ _) as [mrs2 e2].
    destruct (shr_m mrs2); try discriminate.
    + rewrite xorb_nilpotent. discriminate.
    + destruct (_ <=? _)%Z; discriminate.
Qed.

(** On three channels the distance of the model is the computed distance
    written out. *)
Lemma sqdist_three (p q : list float) :
  length p = 3 -> length q = 3 -> sqdist p q = sqdist_rgb p q.
Proof.
  intros Hp Hq.
  destruct p as [|p0 [|p1 [|p2 [|]]]]; try discriminate.
  destruct q as [|q0 [|q1 [|q2 [|]]]]; try discriminate.
  unfold sqdist, bsub, sqdist_rgb, F32.sum. cbn [length Nat.eqb map2 map fold_left].
  now rewrite add_zero_sq.
Qed.

(** C3 (amended). Every index that the lookup produces is below the number
    K of codebook entries. For three-channel samples and codebook (the
    pixels and colours of the script) it is the first argmin of the squared
    distance as computed in binary32, ((x0-c0)^2 + (x1-c1)^2) + (x2-c2)^2
    with every operation rounded: no entry goes before the chosen one in
    the order of torch's argmin (NaN first, then <), and every entry of
    lower index is strictly farther; without NaN distances this is [<=]
    against every entry and [<] against the earlier ones. *)
Theorem nearest_is_first_rounded_argmin (x c : tensor) (a : list nat) :
  nearest x c = Some a ->
  length a = length (data x) /\
  (forall n i, nth_error a n = Some i -> i < length (data c)) /\
  (dim x = 3 -> dim c = 3 -> wf_tensor x -> wf_tensor c ->
   forall n i, nth_error a n = Some i ->
     exists xr ci,
       nth_error (data x) n = Some xr /\ nth_error (data c) i = Some ci /\
       (forall k ck, nth_error (data c) k = Some ck ->
          less_or_nan (sqdist_rgb xr ck) (sqdist_rgb xr ci) = false) /\
       (forall k ck, k < i -> nth_error (data c) k = Some ck ->
          less_or_nan (sqdist_rgb xr ci) (sqdist_rgb xr ck) = true) /\
       ((forall ck, In ck (data c) -> F32.isnan (sqdist_rgb xr ck) = false) ->
        (forall ck, In ck (data c) ->
           F32.leb (sqdist_rgb xr ci) (sqdist_rgb xr ck) = true) /\
        (forall k ck, k < i -> nth_error (data c) k = Some ck ->
           F32.ltb (sqdist_rgb xr ci) (sqdist_rgb xr ck) = true))).
Proof.
  intros H. destruct (nearest_first_argmin_sqdist _ _ H) as [Hlen Hall].
  split; [exact Hlen|]. split.
  { intros n i Hn. pose proof (Hall n i Hn) as Hx. cbv zeta in Hx.
    destruct Hx as [xr [_ [Hi _]]]. exact Hi. }
  intros Hdx Hdc Hwx Hwc n i Hn.
  pose proof (Hall n i Hn) as Hx. cbv zeta in Hx.
  destruct Hx as [xr [Hxr [Hi [Hmin [Hfirst _]]]]].
  assert (Hlx : length xr = 3).
  { unfold wf_tensor in Hwx. rewrite Forall_forall in Hwx.
    rewrite (Hwx xr (nth_error_In _ _ Hxr)). exact Hdx. }
  assert (Hlc : forall ck, In ck (data c) -> length ck = 3).
  { unfold wf_tensor in Hwc. rewrite Forall_forall in Hwc.
    intros ck Hck. rewrite (Hwc ck Hck). exact Hdc. }
  assert (Hd : forall k ck, nth_error (data c) k = Some ck ->
            k < length (data c) /\
            sqdist xr (nth k (data c) []) = sqdist_rgb xr ck).
  { intros k ck Hk. split.
    - apply nth_error_Some. rewrite Hk. discriminate.
    - rewrite (nth_error_nth _ _ [] Hk).
      apply sqdist_three; [exact Hlx|]. eapply Hlc, nth_error_In, Hk. }
  pose proof (nth_error_nth' (data c) [] Hi) as Hci.
  destruct (Hd i _ Hci) as [_ Hdi].
  assert (Hmin' : forall k ck, nth_error (data c) k = Some ck ->
            less_or_nan (sqdist_rgb xr ck) (sqdist_rgb xr (nth i (data c) []))
              = false).
  { intros k ck Hk. destruct (Hd k ck Hk) as [Hklt Hdk].
    rewrite <- Hdk, <- Hdi. now apply Hmin. }
  assert (Hfirst' : forall k ck, k < i -> nth_error (data c) k = Some ck ->
            less_or_nan (sqdist_rgb xr (nth i (data c) [])) (sqdist_rgb xr ck)
              = true).
  { intros k ck Hki Hk. destruct (Hd k ck Hk) as [_ Hdk].
    rewrite <- Hdk, <- Hdi. now apply Hfirst. }
  exists xr, (nth i (data c) []).
  split; [exact Hxr|]. split; [exact Hci|]. split; [exact Hmin'|].
  split; [exact Hfirst'|].
  intros Hnn. split.
  - intros ck Hck. apply In_nth_error in Hck as Hk. destruct Hk as [k Hk].
    apply leb_key.
    + apply Hnn. eapply nth_error_In, Hci.
    + now apply Hnn.
    + apply less_or_nan_false. exact (Hmin' k ck Hk).
  - intros k ck Hki Hk. apply ltb_key.
    + apply Hnn. eapply nth_error_In, Hci.
    + apply Hnn. eapply nth_error_In, Hk.
    + apply less_or_nan_key. exact (Hfirst' k ck Hki Hk).
Qed.

Lemma nearest_is_first_rounded_argmin_witness :
  let x := Tensor 3 [ex_black; ex_white] in
  let c := Tensor 3 [ex_white_above; ex_white; ex_black] in
  let a := [2; 1] in
  nearest x c = Some a /\
  length a = length (data x) /\
  (forall n i, nth_error a n = Some i -> i < length (data c)) /\
  (dim x = 3 -> dim c = 3 -> wf_tensor x -> wf_tensor c ->
   forall n i, nth_error a n = Some i ->
     exists xr ci,
       nth_error (data x) n = Some xr /\ nth_error (data c) i = Some ci /\
       (forall k ck, nth_error (data c) k = Some ck ->
          less_or_nan (sqdist_rgb xr ck) (sqdist_rgb xr ci) = false) /\
       (forall k ck, k < i -> nth_error (data c) k = Some ck ->
          less_or_nan (sqdist_rgb xr ci) (sqdist_rgb xr ck) = true) /\
       ((forall ck, In ck (data c) -> F32.isnan (sqdist_rgb xr ck) = false) ->
        (forall ck, In ck (data c) ->
           F32.leb (sqdist_rgb xr ci) (sqdist_rgb xr ck) = true) /\
        (forall k ck, k < i -> nth_error (data c) k = Some ck ->
           F32.ltb (sqdist_rgb xr ci) (sqdist_rgb xr ck) = true))).
Proof.
  intros x c a.
  assert (H : nearest x c = Some a) by reflexivity.
  split; [exact H|].
  exact (@nearest_is_first_rounded_argmin x c a H).
Defined.

(** C3 as stated fails where rounding makes two distances equal: for a black
    pixel the lookup computes the same distance, 195075, to the colour
    (255, 255, 255 + 2^-16) at index 0 and to (255, 255, 255) at index 1,
    and returns index 0, although the squared Euclidean distance to the
    colour at index 1 is strictly smaller. *)
Lemma nearest_not_exact_argmin :
  nearest (Tensor 3 [ex_black]) (Tensor 3 [ex_white_above; ex_white])
    = Some [0] /\
  sqdist_rgb ex_black ex_white_above = sqdist_rgb ex_black ex_white /\
  exists d0 d1,
    sqdist_exact ex_black ex_white_above = Some d0 /\
    sqdist_exact ex_black ex_white = Some d1 /\
    QArith_base.Qlt d1 d0.
Proof.
  split; [reflexivity|]. split; [reflexivity|].
  eexists. eexists. split; [reflexivity|]. split; [reflexivity|].
  vm_compute. reflexivity.
Qed.

(** ** Masked assignment *)

Lemma count_true_le (mask : list bool) : count_true mask <= length mask.
Proof. apply filter_length_le. Qed.

Lemma count_true_firstn_lt (mask : list bool) : forall k,
  nth k mask false = true -> count_true (firstn k mask) < count_true mask.
Proof.
  induction mask as [|b mask IH]; intros [|k] Hk; simpl in *;
    try discriminate.
  - subst b. unfold count_true. simpl. lia.
  - specialize (IH k Hk). unfold count_true in *.
    destruct b; simpl; lia.
Qed.

Section MaskedPut.

Variable A : Type.

Lemma masked_put_length (rows : list A) : forall mask vals,
  length (masked_put rows mask vals) = length rows.
Proof.
  induction rows as [|r rows IH]; intros [|[|] mask] vals; simpl; auto.
  destruct vals; simpl; auto.
Qed.

Lemma masked_put_nth_error (rows : list A) : forall mask vals k,
  length mask = length rows ->
  count_true mask <= length vals ->
  nth_error (masked_put rows mask vals) k =
    if nth k mask false
    then nth_error vals (count_true (firstn k mask))
    else nth_error rows k.
Proof.
  induction rows as [|r rows IH]; intros [|b mask] vals k Hlen Hcnt;
    simpl in *; try discriminate.
  - now destruct k.
  - injection Hlen as Hlen. destruct b.
    + destruct vals as [|v vals]; [unfold count_true in Hcnt; simpl in Hcnt; lia|].
      destruct k as [|k]; simpl; [reflexivity|].
      rewrite IH; auto.
      unfold count_true in *. simpl in *. lia.
    + destruct k as [|k]; simpl; [reflexivity|].
      rewrite IH; auto.
Qed.

Lemma masked_put_Forall (P : A -> Prop) (rows : list A) : forall mask vals,
  count_true mask <= length vals ->
  Forall P vals ->
  Forall2 (fun r b => b = false -> P r) rows mask ->
  Forall P (masked_put rows mask vals).
Proof.
  induction rows as [|r rows IH]; intros mask vals Hcnt Hv Hm; simpl.
  - destruct mask; constructor.
  - inversion Hm as [|r' b rows' mask' Hb Hm' E1 E2]; subst.
    unfold count_true in Hcnt. destruct b; simpl in Hcnt.
    + destruct vals as [|v vals]; [simpl in Hcnt; lia|].
      inversion Hv; subst. constructor; auto.
      apply IH; auto. unfold count_true. simpl in Hcnt. lia.
    + constructor; auto.
Qed.

End MaskedPut.

(** ** The re-seeding step *)

Lemma rng_ok_tail n (g : rng) : rng_ok n g -> rng_ok n (fun j => g (S j)).
Proof. intros H j. apply H. Qed.

Lemma firstn_perm_range n k (p : list Z) :
  Permutation p (arange n) ->
  Forall (fun i => 0 <= i < Z.of_nat n)%Z (firstn k p).
Proof.
  intros Hp. apply Forall_forall. intros i Hi.
  apply arange_In. eapply Permutation_in; [exact Hp|].
  rewrite <- (firstn_skipn k p). apply in_or_app. now left.
Qed.

Lemma firstn_perm_length n k (p : list Z) :
  Permutation p (arange n) -> k <= n -> length (firstn k p) = k.
Proof.
  intros Hp Hk. rewrite length_firstn.
  apply Permutation_length in Hp. rewrite arange_length in Hp. lia.
Qed.

Lemma nanix_length c : length (nanix c) = length (data c).
Proof. unfold nanix. apply length_map. Qed.

Lemma reseed_spec (x c : tensor) (g : rng) :
  length (data c) <= length (data x) ->
  rng_ok (length (data x)) g ->
  let ndead := count_true (nanix c) in
  exists v,
    gather (data x) (firstn ndead (g 0)) = Some v /\
    length v = ndead /\
    masked_assign c (nanix c) v
      = Some (Tensor (dim c) (masked_put (data c) (nanix c) v)) /\
    reseed x c g
      = Some (Tensor (dim c) (masked_put (data c) (nanix c) v),
              fun j => g (S j)).
Proof.
  intros HK Hg ndead.
  assert (Hnd : ndead <= length (data x)).
  { unfold ndead. pose proof (count_true_le (nanix c)) as H.
    rewrite nanix_length in H. lia. }
  destruct (@gather_total _ (data x) (firstn ndead (g 0))) as [v Hv].
  { eapply firstn_perm_range, Hg. }
  assert (Hlen : length v = ndead).
  { apply gather_length in Hv. rewrite Hv.
    eapply firstn_perm_length; [apply Hg | exact Hnd]. }
  assert (Hma : masked_assign c (nanix c) v
                = Some (Tensor (dim c) (masked_put (data c) (nanix c) v))).
  { unfold masked_assign. fold ndead. rewrite Hlen, Nat.eqb_refl. reflexivity. }
  exists v. repeat split; auto.
  unfold reseed, bind, randperm, lift. fold ndead. rewrite Hv.
  rewrite Hma. reflexivity.
Qed.

Lemma recompute_Some (x : tensor) (a : list nat) (K : nat) (c : tensor) :
  recompute x a K = Some c ->
  dim c = dim x /\ length (data c) = K /\ wf_tensor c /\
  forall k, k < K ->
    nth_error (data c) k = Some (mean0 (dim x) (select (data x) a k)).
Proof.
  unfold recompute, stack.
  remember (map (fun k => mean0 (dim x) (select (data x) a k)) (seq 0 K))
    as rows eqn:E.
  destruct rows as [|r rows]; [discriminate|].
  intros H. injection H as <-. unfold wf_tensor. cbn [dim data]. rewrite E.
  split; [reflexivity|]. split; [now rewrite length_map, length_seq|]. split.
  - apply Forall_forall.
    intros r' Hr'. apply in_map_iff in Hr' as [k [<- _]].
    unfold mean0. now rewrite length_map, length_seq.
  - intros k Hk. rewrite nth_error_map, nth_error_seq.
    destruct (Nat.ltb_spec k K); [reflexivity | lia].
Qed.

Lemma recompute_total (x : tensor) (a : list nat) (K : nat) :
  0 < K -> exists c, recompute x a K = Some c.
Proof.
  intros HK. unfold recompute, stack.
  destruct K as [|K]; [lia|]. simpl. eauto.
Qed.

(** The mean of no row is NaN in every column. *)
Lemma mean0_empty_nan (D : nat) : 0 < D -> row_nan (mean0 D []) = true.
Proof.
  intros HD. destruct D as [|D]; [lia|]. reflexivity.
Qed.

Lemma Forall2_nanix (rows : list (list float)) :
  Forall2 (fun r b => b = false -> row_nan r = false) rows (map row_nan rows).
Proof. induction rows; simpl; constructor; auto. Qed.

Lemma Forall2_mask (P : list float -> Prop) (rows : list (list float)) :
  Forall P rows -> forall mask, length mask = length rows ->
  Forall2 (fun r (b : bool) => b = false -> P r) rows mask.
Proof.
  induction 1 as [|r rows Hr _ IH]; intros [|b mask] Hlen; simpl in *;
    try discriminate; constructor; auto.
Qed.

(** What one re-seeding does to the recomputed centres [c]. *)
Lemma reseed_result (x c : tensor) (g : rng) :
  length (data c) <= length (data x) ->
  rng_ok (length (data x)) g ->
  exists v c',
    gather (data x) (firstn (count_true (nanix c)) (g 0)) = Some v /\
    length v = count_true (nanix c) /\
    masked_assign c (nanix c) v = Some c' /\
    reseed x c g = Some (c', fun j => g (S j)) /\
    dim c' = dim c /\
    length (data c') = length (data c) /\
    (forall k, nth k (nanix c) false = true ->
       exists r, nth_error v (count_true (firstn k (nanix c))) = Some r /\
                 nth_error (data c') k = Some r) /\
    (forall k, nth k (nanix c) false = false ->
       nth_error (data c') k = nth_error (data c) k) /\
    (wf_tensor x -> wf_tensor c -> dim c = dim x -> wf_tensor c') /\
    (nan_free x -> nan_free c').
Proof.
  intros HK Hg.
  destruct (reseed_spec x c HK Hg) as [v [Hv [Hlen [Hma Hrs]]]].
  exists v, (Tensor (dim c) (masked_put (data c) (nanix c) v)).
  assert (Hcnt : count_true (nanix c) <= length v) by lia.
  pose proof (gather_In _ _ Hv) as Hin.
  repeat split; auto.
  - simpl. apply masked_put_length.
  - intros k Hk. simpl.
    rewrite masked_put_nth_error by (auto using nanix_length). rewrite Hk.
    pose proof (count_true_firstn_lt _ _ Hk) as Hlt.
    destruct (nth_error v (count_true (firstn k (nanix c)))) as [r|] eqn:E.
    + now exists r.
    + apply nth_error_None in E. lia.
  - intros k Hk. simpl.
    rewrite masked_put_nth_error by (auto using nanix_length). now rewrite Hk.
  - intros Hx Hc Hdim. unfold wf_tensor in *. simpl.
    apply masked_put_Forall; auto.
    + rewrite Hdim. rewrite Forall_forall in *. intros r Hr. auto.
    + apply Forall2_mask; auto using nanix_length.
  - intros Hx. unfold nan_free in *. simpl.
    apply masked_put_Forall; auto.
    + rewrite Forall_forall in *. intros r Hr. auto.
    + apply Forall2_nanix.
Qed.

(** C10. In an iteration the number of dead centres is at most K; with
    N >= K the sample [x[randperm(N)[:ndead]]] reads only valid rows and has
    exactly [ndead] rows, the assignment [c[nanix] = ...] does not raise, and
    the dead centre of rank [j] among the dead ones receives row [j] of the
    sample. *)
Theorem reseed_well_formed (x : tensor) (a : list nat) (K : nat)
  (c : tensor) (g : rng) :
  recompute x a K = Some c ->
  K <= length (data x) ->
  rng_ok (length (data x)) g ->
  let ndead := count_true (nanix c) in
  ndead <= K /\
  exists v c',
    gather (data x) (firstn ndead (g 0)) = Some v /\
    length v = ndead /\
    masked_assign c (nanix c) v = Some c' /\
    reseed x c g = Some (c', fun j => g (S j)) /\
    length (data c') = K /\
    forall k, nth k (nanix c) false = true ->
      let j := count_true (firstn k (nanix c)) in
      j < ndead /\
      exists r, nth_error v j = Some r /\ nth_error (data c') k = Some r.
Proof.
  intros Hc HK Hg ndead.
  destruct (recompute_Some _ _ _ Hc) as [_ [HlenK _]].
  rewrite <- HlenK in HK.
  destruct (reseed_result x c HK Hg)
    as [v [c' [Hv [Hlen [Hma [Hrs [_ [Hlen' [Hdead _]]]]]]]]].
  split.
  - unfold ndead. rewrite <- HlenK, <- nanix_length. apply count_true_le.
  - exists v, c'. do 4 (split; [assumption|]). split; [congruence|].
    intros k Hk j. split.
    + now apply count_true_firstn_lt.
    + now apply Hdead.
Qed.

Lemma ex_rng_ok : rng_ok 3 ex_rng.
Proof. intros j. apply (perm_swap 0%Z 1%Z [2%Z]). Qed.

Lemma reseed_well_formed_witness :
  exists c v c',
    recompute ex_x [0; 0; 0] 2 = Some c /\
    count_true (nanix c) = 1 /\
    gather (data ex_x) (firstn 1 (ex_rng 0)) = Some v /\
    length v = 1 /\
    reseed ex_x c ex_rng = Some (c', fun j => ex_rng (S j)) /\
    length (data c') = 2.
Proof.
  set (c := Tensor 1 (map (fun k => mean0 1 (select (data ex_x) [0; 0; 0] k))
                          (seq 0 2))).
  assert (Hc : recompute ex_x [0; 0; 0] 2 = Some c) by reflexivity.
  assert (HK : 2 <= length (data ex_x)) by (simpl; lia).
  destruct (@reseed_well_formed ex_x [0; 0; 0] 2 c ex_rng Hc HK ex_rng_ok)
    as [_ [v [c' [Hv [Hlen [_ [Hrs [Hlen' _]]]]]]]].
  exists c, v, c'. repeat split; assumption.
Defined.

(** ** One pass of the loop *)

Lemma assign_total (x c : tensor) :
  dim c = dim x -> 0 < length (data c) -> exists a, assign x c = Some a.
Proof.
  intros Hdim HK. unfold assign, nearest, sqdist_matrix, argmin1, broadcastable.
  rewrite Hdim, Nat.eqb_refl. simpl.
  destruct (Nat.eqb_spec (length (data c)) 0) as [E|_]; [lia|].
  apply mapM_total. apply Forall_forall. intros row Hrow.
  apply in_map_iff in Hrow as [xr [<- _]].
  destruct (data c) as [|cr rest]; [simpl in HK; lia|].
  simpl. eauto.
Qed.

Lemma kmeans_iter_Some (x c0 : tensor) (K : nat) (g : rng) c' g' :
  kmeans_iter x K c0 g = Some (c', g') ->
  exists a c,
    assign x c0 = Some a /\ recompute x a K = Some c /\
    reseed x c g = Some (c', g').
Proof.
  unfold kmeans_iter. intros H.
  apply bind_Some in H as [a [g1 [Ha H]]]. apply lift_Some in Ha as [Ha ->].
  apply bind_Some in H as [c [g2 [Hc H]]]. apply lift_Some in Hc as [Hc ->].
  now exists a, c.
Qed.

Lemma kmeans_iter_total (x c0 : tensor) (K : nat) (g : rng) :
  wf_tensor x -> nan_free x ->
  0 < K -> K <= length (data x) ->
  rng_ok (length (data x)) g ->
  dim c0 = dim x -> length (data c0) = K ->
  exists c',
    kmeans_iter x K c0 g = Some (c', fun j => g (S j)) /\
    dim c' = dim x /\ length (data c') = K /\ wf_tensor c' /\ nan_free c'.
Proof.
  intros Hwf Hnan HK HKN Hg Hdim Hlen.
  destruct (@assign_total x c0) as [a Ha]; auto; [lia|].
  destruct (@recompute_total x a K HK) as [c Hc].
  destruct (recompute_Some _ _ _ Hc) as [Hcd [Hcl [Hcwf _]]].
  rewrite <- Hcl in HKN.
  destruct (reseed_result x c HKN Hg)
    as [v [c' [_ [_ [_ [Hrs [Hd' [Hl' [_ [_ [Hwf' Hnan']]]]]]]]]]].
  exists c'. split.
  - unfold kmeans_iter, bind, lift. now rewrite Ha, Hc.
  - repeat split; auto; congruence.
Qed.

Lemma reseed_Some (x c : tensor) (g : rng) c' g' :
  reseed x c g = Some (c', g') ->
  exists v,
    gather (data x) (firstn (count_true (nanix c)) (g 0)) = Some v /\
    masked_assign c (nanix c) v = Some c'.
Proof.
  unfold reseed. intros H.
  apply bind_Some in H as [p [g1 [Hp H]]].
  unfold randperm in Hp. injection Hp as <- <-.
  apply bind_Some in H as [v [g2 [Hv H]]].
  apply lift_Some in Hv as [Hv ->]. apply lift_Some in H as [H _].
  now exists v.
Qed.

(** The values that [c[nanix] = v] writes: [v] itself, or its one row
    repeated. *)
Lemma masked_assign_nanix (c : tensor) (v : list (list float)) c' :
  masked_assign c (nanix c) v = Some c' ->
  exists w, data c' = masked_put (data c) (nanix c) w /\
            count_true (nanix c) <= length w /\
            forall r, In r w -> In r v.
Proof.
  unfold masked_assign.
  destruct (Nat.eqb_spec (length v) (count_true (nanix c))) as [E|_].
  - intros H. injection H as <-. exists v. simpl. split; [reflexivity|].
    split; [lia | auto].
  - destruct v as [|r [|r' v]]; try discriminate.
    intros H. injection H as <-.
    exists (repeat r (count_true (nanix c))). simpl.
    split; [reflexivity|]. split; [now rewrite repeat_length|].
    intros r0 Hr0. apply repeat_spec in Hr0. now left.
Qed.

(** C4. In a pass of the loop, a centre with no assigned sample (in at least
    one dimension) has a NaN mean; every centre whose mean has a NaN is
    overwritten, in that same pass, by a row of the input drawn with a fresh
    [randperm]; the centres that the pass hands to the next assignment have
    no NaN when the input has none. *)
Theorem dead_centres_reseeded (x c0 : tensor) (K : nat) (g : rng)
  (c' : tensor) (g' : rng) :
  kmeans_iter x K c0 g = Some (c', g') ->
  exists a c,
    assign x c0 = Some a /\ recompute x a K = Some c /\
    (forall k, k < K -> 0 < dim x -> select (data x) a k = [] ->
       nth k (nanix c) false = true) /\
    (forall k, nth k (nanix c) false = true ->
       exists j i xr, j < count_true (nanix c) /\
         nth_error (g 0) j = Some i /\
         index1 (data x) i = Some xr /\
         nth_error (data c') k = Some xr) /\
    (nan_free x -> nan_free c').
Proof.
  intros H.
  destruct (kmeans_iter_Some _ _ _ _ H) as [a [c [Ha [Hc Hrs]]]].
  exists a, c. split; [exact Ha|]. split; [exact Hc|].
  destruct (recompute_Some _ _ _ Hc) as [Hcd [Hcl [Hcwf Hrow]]].
  destruct (reseed_Some _ _ _ Hrs) as [v [Hv Hma]].
  destruct (masked_assign_nanix _ _ Hma) as [w [Hw [Hcnt Hwv]]].
  split; [|split].
  - intros k Hk HD Hsel. unfold nanix.
    rewrite (nth_indep _ false (row_nan [])) by (rewrite length_map; lia).
    rewrite map_nth.
    rewrite (nth_error_nth _ _ [] (Hrow k Hk)), Hsel.
    now apply mean0_empty_nan.
  - intros k Hk. rewrite Hw.
    rewrite masked_put_nth_error by (auto using nanix_length). rewrite Hk.
    pose proof (count_true_firstn_lt _ _ Hk) as Hlt.
    destruct (nth_error w (count_true (firstn k (nanix c)))) as [r|] eqn:E;
      [|apply nth_error_None in E; lia].
    apply nth_error_In, Hwv, In_nth_error in E as [j Hj].
    destruct (mapM_nth_error _ _ _ Hv Hj) as [i [Hi Hix]].
    rewrite nth_error_firstn in Hi.
    destruct (Nat.ltb_spec j (count_true (nanix c))); [|discriminate].
    now exists j, i, r.
  - intros Hx. unfold nan_free in *. rewrite Hw.
    apply masked_put_Forall; auto.
    + pose proof (gather_In _ _ Hv) as Hin.
      rewrite Forall_forall in *. intros r Hr. auto.
    + apply Forall2_nanix.
Qed.

Lemma dead_centres_reseeded_witness :
  let c0 := Tensor 1 [[F32.of_Z 0]; [F32.of_Z 0]] in
  let c' := Tensor 1 [[F32.div (F32.of_Z 11) (F32.of_Z 3)]; [F32.of_Z 1]] in
  kmeans_iter ex_x 2 c0 ex_rng = Some (c', fun j => ex_rng (S j)) /\
  exists a c,
    assign ex_x c0 = Some a /\ recompute ex_x a 2 = Some c /\
    (forall k, k < 2 -> 0 < dim ex_x -> select (data ex_x) a k = [] ->
       nth k (nanix c) false = true) /\
    (forall k, nth k (nanix c) false = true ->
       exists j i xr, j < count_true (nanix c) /\
         nth_error (ex_rng 0) j = Some i /\
         index1 (data ex_x) i = Some xr /\
         nth_error (data c') k = Some xr) /\
    (nan_free ex_x -> nan_free c').
Proof.
  intros c0 c'.
  assert (H : kmeans_iter ex_x 2 c0 ex_rng = Some (c', fun j => ex_rng (S j)))
    by reflexivity.
  split; [exact H|].
  exact (@dead_centres_reseeded ex_x c0 2 ex_rng c' (fun j => ex_rng (S j)) H).
Defined.

(** ** The whole clustering *)

Lemma kmeans_loop_total (x : tensor) (K niter : nat) :
  wf_tensor x -> nan_free x ->
  0 < K -> K <= length (data x) ->
  forall (c : tensor) (g : rng),
    rng_ok (length (data x)) g ->
    dim c = dim x -> length (data c) = K -> wf_tensor c -> nan_free c ->
    exists c' g',
      kmeans_loop x K niter c g = Some (c', g') /\
      dim c' = dim x /\ length (data c') = K /\ wf_tensor c' /\ nan_free c'.
Proof.
  intros Hwf Hnan HK HKN.
  induction niter as [|niter IH]; intros c g Hg Hdim Hlen Hcwf Hcnan; simpl.
  - exists c, g. unfold ret. auto.
  - destruct (@kmeans_iter_total x c K g) as [c1 [H1 [Hd1 [Hl1 [Hw1 Hn1]]]]];
      auto.
    destruct (IH c1 (fun j => g (S j))) as [c' [g' [H' Hrest]]];
      auto using rng_ok_tail.
    exists c', g'. split; [|exact Hrest].
    unfold bind. now rewrite H1.
Qed.

Lemma kmeans_init (x : tensor) (K : nat) (g : rng) :
  K <= length (data x) -> rng_ok (length (data x)) g ->
  exists c, gather (data x) (firstn K (g 0)) = Some c /\
            length c = K /\ Forall (fun r => In r (data x)) c.
Proof.
  intros HKN Hg.
  destruct (@gather_total _ (data x) (firstn K (g 0))) as [c Hc].
  { eapply firstn_perm_range, Hg. }
  exists c. split; [exact Hc|]. split.
  - apply gather_length in Hc. rewrite Hc.
    eapply firstn_perm_length; [apply Hg | exact HKN].
  - eapply gather_In, Hc.
Qed.

(** C1 (amended). For an input of N D-dimensional vectors without NaN and
    1 <= K <= N, [kmeans] returns, for every number of iterations and every
    outcome of the random draws, exactly K vectors, each D-dimensional and
    without NaN. *)
Theorem kmeans_codebook (x : tensor) (K niter : nat) (g : rng) :
  wf_tensor x -> nan_free x ->
  1 <= K -> K <= length (data x) ->
  rng_ok (length (data x)) g ->
  exists c g',
    kmeans x K niter g = Some (c, g') /\
    length (data c) = K /\ dim c = dim x /\ wf_tensor c /\ nan_free c.
Proof.
  intros Hwf Hnan HK HKN Hg.
  destruct (kmeans_init x HKN Hg) as [c0 [Hc0 [Hlen Hin]]].
  destruct (@kmeans_loop_total x K niter Hwf Hnan HK HKN
              (Tensor (dim x) c0) (fun j => g (S j)))
    as [c [g' [Hloop [Hd [Hl [Hw Hn]]]]]]; auto using rng_ok_tail.
  - unfold wf_tensor in *. simpl. rewrite Forall_forall in *. auto.
  - unfold nan_free in *. simpl. rewrite Forall_forall in *. auto.
  - exists c, g'. split; [|auto].
    unfold kmeans, bind, randperm, lift. now rewrite Hc0.
Qed.

Lemma ex_x_wf : wf_tensor ex_x.
Proof. repeat constructor. Qed.

Lemma ex_x_nan_free : nan_free ex_x.
Proof. repeat constructor. Qed.

Lemma kmeans_codebook_witness :
  exists c g',
    kmeans ex_x 2 3 ex_rng = Some (c, g') /\
    length (data c) = 2 /\ dim c = dim ex_x /\ wf_tensor c /\ nan_free c.
Proof.
  apply (@kmeans_codebook ex_x 2 3 ex_rng ex_x_wf ex_x_nan_free).
  - lia.
  - simpl. lia.
  - exact ex_rng_ok.
Defined.

(** C1 as stated fails for K = 0: with one sample, no centre and one
    iteration the preconditions hold (N = 1 >= 0 = K, no NaN), and the
    assignment step raises, since [argmin] is taken over an empty
    dimension. *)
Lemma kmeans_no_centre_raises :
  let x := Tensor 1 [[F32.of_Z 1]] in
  let g : rng := fun _ => [0%Z] in
  wf_tensor x /\ nan_free x /\ 0 <= length (data x) /\
  rng_ok (length (data x)) g /\
  kmeans x 0 1 g = None.
Proof.
  intros x g. split; [|split; [|split; [|split]]].
  - repeat constructor.
  - repeat constructor.
  - lia.
  - intros j. apply Permutation_refl.
  - reflexivity.
Qed.

(** ** Sorting and the inverse permutation *)

Lemma insert_key_perm p l : Permutation (insert_key p l) (p :: l).
Proof.
  induction l as [|q l IH]; simpl; [reflexivity|].
  destruct (fst p <=? fst q)%Z; [reflexivity|].
  rewrite IH. apply perm_swap.
Qed.

Lemma sort_keyed_perm l : Permutation (sort_keyed l) l.
Proof.
  induction l as [|p l IH]; simpl; [reflexivity|].
  rewrite insert_key_perm. now constructor.
Qed.

Lemma insert_key_sorted p l :
  StronglySorted key_le l -> StronglySorted key_le (insert_key p l).
Proof.
  induction 1 as [|q l Hl IH Hq]; simpl.
  - repeat constructor.
  - destruct (Z.leb_spec (fst p) (fst q)).
    + constructor; [now constructor|].
      constructor; [exact H|].
      eapply Forall_impl; [|exact Hq]. unfold key_le. intros r Hr. lia.
    + constructor; [exact IH|].
      eapply Permutation_Forall; [symmetry; apply insert_key_perm|].
      constructor; [unfold key_le; lia | exact Hq].
Qed.

Lemma sort_keyed_sorted l : StronglySorted key_le (sort_keyed l).
Proof.
  induction l as [|p l IH]; simpl; [constructor|].
  now apply insert_key_sorted.
Qed.

Lemma map_fst_sorted l :
  StronglySorted key_le l -> StronglySorted Z.le (map fst l).
Proof.
  induction 1 as [|q l Hl IH Hq]; simpl; constructor; auto.
  apply Forall_map. exact Hq.
Qed.

Lemma arange_sorted_from s n :
  StronglySorted Z.le (map Z.of_nat (seq s n)).
Proof.
  revert s. induction n as [|n IH]; intros s; simpl; constructor; auto.
  apply Forall_map, Forall_forall. intros j Hj. apply in_seq in Hj. lia.
Qed.

Lemma arange_sorted n : StronglySorted Z.le (arange n).
Proof. apply arange_sorted_from. Qed.

(** Two sorted lists with the same entries are the same list. *)
Lemma sorted_perm_eq (l1 : list Z) : forall l2,
  StronglySorted Z.le l1 -> StronglySorted Z.le l2 ->
  Permutation l1 l2 -> l1 = l2.
Proof.
  induction l1 as [|a l1 IH]; intros l2 H1 H2 Hp.
  - apply Permutation_nil in Hp. now subst.
  - destruct l2 as [|b l2].
    + symmetry in Hp. apply Permutation_nil in Hp. discriminate.
    + inversion H1 as [|a' l1' Hs1 Ha]; subst.
      inversion H2 as [|b' l2' Hs2 Hb]; subst.
      assert (a = b).
      { assert (Hin1 : In a (b :: l2))
          by (eapply Permutation_in; [exact Hp | now left]).
        assert (Hin2 : In b (a :: l1))
          by (eapply Permutation_in; [symmetry; exact Hp | now left]).
        rewrite Forall_forall in Ha, Hb.
        destruct Hin1 as [->|Hin1]; [reflexivity|].
        destruct Hin2 as [->|Hin2]; [reflexivity|].
        apply Ha in Hin2. apply Hb in Hin1. lia. }
      subst b. f_equal. apply IH; auto.
      eapply Permutation_cons_inv, Hp.
Qed.

Lemma combine_fst (A B : Type) (u : list A) : forall (v : list B),
  length u = length v -> map fst (combine u v) = u.
Proof.
  induction u as [|a u IH]; intros [|b v] H; simpl in *; try discriminate;
    auto. f_equal. apply IH. lia.
Qed.

Lemma combine_snd (A B : Type) (u : list A) : forall (v : list B),
  length u = length v -> map snd (combine u v) = v.
Proof.
  induction u as [|a u IH]; intros [|b v] H; simpl in *; try discriminate;
    auto. f_equal. apply IH. lia.
Qed.

Lemma torch_sort_values (v : list Z) n :
  Permutation v (arange n) -> fst (torch_sort v) = arange n.
Proof.
  intros Hp. unfold torch_sort. simpl.
  apply sorted_perm_eq.
  - apply map_fst_sorted, sort_keyed_sorted.
  - apply arange_sorted.
  - rewrite sort_keyed_perm, combine_fst by (now rewrite arange_length).
    exact Hp.
Qed.

Lemma argsort_perm (v : list Z) :
  Permutation (argsort v) (arange (length v)).
Proof.
  unfold argsort, torch_sort. simpl.
  rewrite sort_keyed_perm, combine_snd by (now rewrite arange_length).
  reflexivity.
Qed.

Lemma In_combine_from (A : Type) (v : list A) : forall s a i,
  In (a, i) (combine v (map Z.of_nat (seq s (length v)))) ->
  exists k, i = Z.of_nat (s + k) /\ nth_error v k = Some a.
Proof.
  induction v as [|b v IH]; intros s a i H; simpl in *; [contradiction|].
  destruct H as [H|H].
  - injection H as -> <-. exists 0. split; [f_equal; lia | reflexivity].
  - destruct (IH _ _ _ H) as [k [-> Hk]]. exists (S k).
    split; [f_equal; lia | exact Hk].
Qed.

(** Entry [j] of the inverse is a position where the permutation has [j]. *)
Lemma argsort_inverse (v : list Z) n j :
  Permutation v (arange n) -> j < n ->
  exists i, nth_error (argsort v) j = Some (Z.of_nat i) /\
            nth_error v i = Some (Z.of_nat j).
Proof.
  intros Hp Hj.
  pose proof (@torch_sort_values v n Hp) as Hval.
  unfold argsort, torch_sort in *. simpl in *.
  set (sp := sort_keyed (combine v (arange (length v)))) in *.
  assert (Hfst : nth_error (map fst sp) j = Some (Z.of_nat j))
    by (rewrite Hval; now apply arange_nth_error).
  rewrite nth_error_map in Hfst.
  destruct (nth_error sp j) as [[a i]|] eqn:E; [|discriminate].
  simpl in Hfst. injection Hfst as ->.
  assert (Hin : In (Z.of_nat j, i) (combine v (arange (length v)))).
  { eapply Permutation_in; [apply sort_keyed_perm|].
    eapply nth_error_In, E. }
  apply In_combine_from in Hin as [k [-> Hk]].
  exists k. split; [|exact Hk].
  rewrite nth_error_map, E. reflexivity.
Qed.

Lemma gather_nth_error (A : Type) (l : list A) idx r j i :
  gather l idx = Some r -> nth_error idx j = Some i ->
  nth_error r j = index1 l i.
Proof.
  intros H Hj. destruct (mapM_nth_error_src _ _ _ H Hj) as [b [Hb Hi]].
  congruence.
Qed.

Lemma perm_range n (v : list Z) :
  Permutation v (arange n) -> Forall (fun i => 0 <= i < Z.of_nat n)%Z v.
Proof.
  intros Hp. apply Forall_forall. intros i Hi. apply arange_In.
  eapply Permutation_in; eauto.
Qed.

(** Indexing by a permutation and then by its [argsort] gives the sequence
    back. *)
Lemma gather_argsort (A : Type) (s : list A) (v : list Z) :
  Permutation v (arange (length s)) ->
  exists e, gather s v = Some e /\ length e = length s /\
            gather e (argsort v) = Some s.
Proof.
  intros Hp. set (n := length s) in *.
  assert (Hlv : length v = n)
    by (apply Permutation_length in Hp; now rewrite arange_length in Hp).
  destruct (@gather_total _ s v) as [e He]; [now apply perm_range|].
  assert (Hle : length e = n) by (apply gather_length in He; lia).
  destruct (@gather_total _ e (argsort v)) as [r Hr].
  { rewrite Hle. apply perm_range. rewrite <- Hlv. apply argsort_perm. }
  exists e. split; [exact He|]. split; [exact Hle|].
  rewrite Hr. f_equal. apply nth_error_ext. intros j.
  assert (Hlr : length r = n).
  { apply gather_length in Hr. rewrite Hr.
    pose proof (argsort_perm v) as Hq. apply Permutation_length in Hq.
    rewrite arange_length in Hq. lia. }
  destruct (Nat.lt_ge_cases j n) as [Hj|Hj].
  - destruct (@argsort_inverse v n j Hp Hj) as [i [Hi Hvi]].
    rewrite (gather_nth_error _ _ _ Hr Hi), index1_of_nat.
    rewrite (gather_nth_error _ _ _ He Hvi), index1_of_nat. reflexivity.
  - transitivity (@None A); [|symmetry]; apply nth_error_None; lia.
Qed.

(** C5. The permutation of an adapter (the default one, or one given at
    construction that is a permutation of the 1024 positions) is a bijection
    on the 1024 positions: its [argsort] is again a permutation of them,
    sorting that inverse gives [0 .. 1023], and a sequence of length 1024
    indexed by the permutation and then by the inverse is the sequence
    itself. *)
Theorem perm_inverted (pt : base_dataset) (c : tensor) (p : option (list Z)) :
  (forall q, p = Some q -> Permutation q (arange (32 * 32))) ->
  let ds := ImageDataset_init pt c p in
  Permutation (perm ds) (arange (32 * 32)) /\
  Permutation (iperm ds) (arange (32 * 32)) /\
  fst (torch_sort (iperm ds)) = arange (32 * 32) /\
  forall (A : Type) (s : list A), length s = 32 * 32 ->
    exists e, gather s (perm ds) = Some e /\ decode ds e = Some s.
Proof.
  intros Hp ds.
  assert (H : Permutation (perm ds) (arange (32 * 32))).
  { unfold ds, ImageDataset_init. cbn [perm].
    destruct p as [q|]; [now apply Hp | reflexivity]. }
  assert (Hlen : length (perm ds) = 32 * 32).
  { apply Permutation_length in H. now rewrite arange_length in H. }
  assert (Hi : Permutation (iperm ds) (arange (32 * 32))).
  { unfold iperm. rewrite <- Hlen. apply argsort_perm. }
  split; [exact H|]. split; [exact Hi|]. split.
  - now apply torch_sort_values.
  - intros A s Hs. rewrite <- Hs in H.
    destruct (gather_argsort s H) as [e [He [_ Hd]]].
    exists e. split; [exact He | exact Hd].
Qed.

Lemma perm_inverted_witness :
  let ds := ImageDataset_init [] (Tensor 3 []) (Some (rev (arange (32 * 32)))) in
  Permutation (perm ds) (arange (32 * 32)) /\
  Permutation (iperm ds) (arange (32 * 32)) /\
  fst (torch_sort (iperm ds)) = arange (32 * 32) /\
  forall (A : Type) (s : list A), length s = 32 * 32 ->
    exists e, gather s (perm ds) = Some e /\ decode ds e = Some s.
Proof.
  apply (@perm_inverted [] (Tensor 3 []) (Some (rev (arange (32 * 32))))).
  intros q Hq.
  apply (Permutation_trans (l' := rev (arange (32 * 32)))).
  - apply (f_equal (fun o => match o with Some q' => q' | None => q end)) in Hq.
    rewrite <- Hq. apply Permutation_refl.
  - apply Permutation_sym, Permutation_rev.
Defined.

(** ** The adapter *)

Lemma view3_total (A : Type) (n : nat) : forall l : list A,
  length l = 3 * n -> exists r, view3 l = Some r /\ length r = n.
Proof.
  induction n as [|n IH]; intros l Hl.
  - destruct l; [|simpl in Hl; lia]. now exists [].
  - destruct l as [|a [|b [|c l]]]; simpl in Hl; try lia.
    destruct (IH l) as [r [Hr Hlen]]; [lia|].
    exists ([a; b; c] :: r). simpl. rewrite Hr. simpl. split; [reflexivity | lia].
Qed.

(** The encoding reads the generator nowhere: it is one fixed outcome,
    whatever the state, and leaves the state as it is. *)
Lemma encode_pure (ds : ImageDataset) (idx : Z) :
  exists o, forall g, encode ds idx g = lift o g.
Proof.
  unfold encode, bind, lift.
  destruct (index1 (pt_dataset ds) idx) as [xy|]; [|now exists None].
  destruct (view3 (fst xy)) as [x|]; [|now exists None].
  destruct (gather x (perm ds)) as [x'|]; [|now exists None].
  eexists. intros g. reflexivity.
Qed.

Lemma getitem_pure (ds : ImageDataset) (idx : Z) :
  exists o, forall g, ImageDataset_getitem ds idx g = lift o g.
Proof.
  destruct (encode_pure ds idx) as [o Ho].
  exists (option_map (fun a => (removelast a, tl a)) o). intros g.
  unfold ImageDataset_getitem, bind. rewrite Ho.
  destruct o; reflexivity.
Qed.

Lemma encode_total (ds : ImageDataset) (idx : Z) (img : image) (y : Z)
  (n : nat) (g : rng) :
  index1 (pt_dataset ds) idx = Some (img, y) ->
  length img = 3 * n ->
  Permutation (perm ds) (arange n) ->
  dim (clusters ds) = 3 ->
  0 < length (data (clusters ds)) ->
  exists a, encode ds idx g = Some (a, g) /\ length a = n.
Proof.
  intros Hidx Himg Hperm Hdim HK.
  destruct (view3_total n img Himg) as [x [Hx Hlx]].
  destruct (@gather_total _ x (perm ds)) as [x' Hx'].
  { rewrite Hlx. now apply perm_range. }
  assert (Hlx' : length x' = n).
  { apply gather_length in Hx'. rewrite Hx'.
    apply Permutation_length in Hperm. now rewrite arange_length in Hperm. }
  destruct (@assign_total (Tensor 3 (map (map F32.of_Z) x')) (clusters ds))
    as [a Ha]; auto.
  exists a. split.
  - unfold encode, bind, lift. rewrite Hidx. simpl. rewrite Hx, Hx'. simpl.
    unfold assign in Ha. now rewrite Ha.
  - apply nearest_rows in Ha as [Hla _]. simpl in Hla.
    rewrite length_map in Hla. congruence.
Qed.

Lemma removelast_last_tl (A : Type) (l : list A) (d : A) :
  2 <= length l -> removelast l ++ [last (tl l) d] = l.
Proof.
  intros Hl. destruct l as [|a [|b l]]; simpl in Hl; try lia.
  assert (Hne : a :: b :: l <> []) by discriminate.
  rewrite (app_removelast_last d Hne) at 3.
  reflexivity.
Qed.

(** C2. For a valid index of a base dataset of 32x32x3 images, an adapter
    whose permutation is a permutation of the 1024 positions and whose
    codebook has K >= 1 three-dimensional entries returns [(input, target)]
    with [input = seq[:-1]] and [target = seq[1:]] for the 1024-long index
    sequence [seq]; both have length 1023, and [input] followed by the last
    element of [target] is [seq]. *)
Theorem getitem_shifted_pair (ds : ImageDataset) (idx : Z) (img : image)
  (y : Z) (g : rng) :
  index1 (pt_dataset ds) idx = Some (img, y) ->
  length img = 3 * (32 * 32) ->
  Permutation (perm ds) (arange (32 * 32)) ->
  dim (clusters ds) = 3 ->
  0 < length (data (clusters ds)) ->
  exists seq inp tgt,
    encode ds idx g = Some (seq, g) /\
    ImageDataset_getitem ds idx g = Some ((inp, tgt), g) /\
    length seq = 32 * 32 /\
    inp = firstn (length seq - 1) seq /\
    tgt = skipn 1 seq /\
    length inp = 32 * 32 - 1 /\
    length tgt = 32 * 32 - 1 /\
    forall d, inp ++ [last tgt d] = seq.
Proof.
  intros Hidx Himg Hperm Hdim HK.
  destruct (@encode_total ds idx img y (32 * 32) g Hidx Himg Hperm Hdim HK)
    as [a [Ha Hla]].
  exists a, (removelast a), (tl a).
  split; [exact Ha|]. split.
  { unfold ImageDataset_getitem, bind. rewrite Ha. reflexivity. }
  split; [exact Hla|]. split.
  { rewrite removelast_firstn_len. f_equal. lia. }
  split; [reflexivity|].
  assert (H2 : 2 <= length a) by (rewrite Hla; apply Nat.leb_le; reflexivity).
  split; [|split].
  - rewrite removelast_firstn_len, length_firstn. lia.
  - destruct a as [|a0 a]; simpl in *; lia.
  - intros d. now apply removelast_last_tl.
Qed.

Lemma ex_image_length : length ex_image = 3 * (32 * 32).
Proof. unfold ex_image. now rewrite length_map, arange_length. Qed.

Lemma getitem_shifted_pair_witness :
  let ds := ImageDataset_init ex_base ex_codebook None in
  exists seq inp tgt,
    encode ds 0 ex_rng = Some (seq, ex_rng) /\
    ImageDataset_getitem ds 0 ex_rng = Some ((inp, tgt), ex_rng) /\
    length seq = 32 * 32 /\
    inp = firstn (length seq - 1) seq /\
    tgt = skipn 1 seq /\
    length inp = 32 * 32 - 1 /\
    length tgt = 32 * 32 - 1 /\
    forall d, inp ++ [last tgt d] = seq.
Proof.
  intros ds.
  apply (@getitem_shifted_pair ds 0 ex_image 3 ex_rng).
  - reflexivity.
  - exact ex_image_length.
  - apply Permutation_refl.
  - reflexivity.
  - simpl. lia.
Defined.

(** C9. [__getitem__] does not depend on the random generator: from any two
    generator states the same adapter and index give the same outcome (the
    same pair, or an error in both), and the call leaves the generator state
    untouched. *)
Theorem getitem_deterministic (ds : ImageDataset) (idx : Z) (g1 g2 : rng) :
  option_map fst (ImageDataset_getitem ds idx g1)
    = option_map fst (ImageDataset_getitem ds idx g2) /\
  (forall r g', ImageDataset_getitem ds idx g1 = Some (r, g') -> g' = g1).
Proof.
  destruct (getitem_pure ds idx) as [o Ho]. rewrite !Ho. split.
  - unfold lift. now destruct o.
  - intros r g' H. now apply lift_Some in H.
Qed.

Lemma encode_length (ds : ImageDataset) (idx : Z) g a g' :
  encode ds idx g = Some (a, g') -> length a = length (perm ds).
Proof.
  unfold encode. intros H.
  apply bind_Some in H as [xy [g1 [_ H]]].
  apply bind_Some in H as [x [g2 [_ H]]].
  apply bind_Some in H as [x' [g3 [Hx' H]]].
  apply lift_Some in Hx' as [Hx' _]. apply lift_Some in H as [H _].
  apply nearest_rows in H as [H _]. simpl in H.
  rewrite length_map in H. apply gather_length in Hx'. congruence.
Qed.

Lemma masked_assign_shape c mask v c' :
  masked_assign c mask v = Some c' ->
  dim c' = dim c /\ length (data c') = length (data c).
Proof.
  unfold masked_assign.
  destruct (length v =? count_true mask).
  - intros H. injection H as <-. simpl. now rewrite masked_put_length.
  - destruct v as [|r [|r' v]]; try discriminate.
    intros H. injection H as <-. simpl. now rewrite masked_put_length.
Qed.

Lemma kmeans_iter_shape (x c0 : tensor) (K : nat) g c' g' :
  kmeans_iter x K c0 g = Some (c', g') ->
  dim c' = dim x /\ length (data c') = K.
Proof.
  intros H. apply kmeans_iter_Some in H as [a [c [_ [Hc Hrs]]]].
  apply recompute_Some in Hc as [Hd [Hl _]].
  unfold reseed in Hrs.
  apply bind_Some in Hrs as [p [g1 [_ Hrs]]].
  apply bind_Some in Hrs as [v [g2 [_ Hrs]]].
  apply lift_Some in Hrs as [Hrs _].
  apply masked_assign_shape in Hrs as [Hd' Hl']. split; congruence.
Qed.

(** After at least one pass the codebook has [ncluster] rows. *)
Lemma kmeans_loop_shape (x : tensor) (K : nat) (n : nat) : forall c g c' g',
  kmeans_loop x K (S n) c g = Some (c', g') ->
  dim c' = dim x /\ length (data c') = K.
Proof.
  induction n as [|n IH]; intros c g c' g' H.
  - simpl in H. apply bind_Some in H as [c1 [g1 [H1 H]]].
    unfold ret in H. injection H as <- <-.
    eapply kmeans_iter_shape, H1.
  - change (kmeans_loop x K (S (S n)) c g)
      with (bind (kmeans_iter x K c) (kmeans_loop x K (S n)) g) in H.
    apply bind_Some in H as [c1 [g1 [_ H]]]. eapply IH, H.
Qed.

Lemma driver_Some train test px g tr te cfg g' :
  driver train test px g = Some ((tr, te, cfg), g') ->
  exists C, kmeans px 512 8 g = Some (C, g') /\
            length (data C) = 512 /\
            tr = ImageDataset_init train C None /\
            te = ImageDataset_init test C None /\
            cfg = mconf tr.
Proof.
  unfold driver. intros H. apply bind_Some in H as [C [g1 [HC H]]].
  unfold ret in H. injection H as <- <- <- <-.
  exists C. repeat split; auto.
  unfold kmeans in HC.
  apply bind_Some in HC as [p [g2 [_ HC]]].
  apply bind_Some in HC as [c0 [g3 [_ HC]]].
  eapply kmeans_loop_shape, HC.
Qed.

(** C8. An adapter has [vocab_size] equal to the number K of rows of its
    codebook and [block_size] equal to 32*32 - 1 = 1023; with a permutation
    of length 1024 that is the length of both sequences of every item it
    returns; and the driver builds the model configuration from exactly
    these two values of the training adapter (K = 512 there). *)
Theorem adapter_sizes :
  (forall pt c p,
     let ds := ImageDataset_init pt c p in
     vocab_size ds = length (data c) /\
     block_size ds = 32 * 32 - 1 /\
     block_size ds = 1023 /\
     forall idx g inp tgt g',
       length (perm ds) = 32 * 32 ->
       ImageDataset_getitem ds idx g = Some ((inp, tgt), g') ->
       length inp = block_size ds /\ length tgt = block_size ds) /\
  (forall train test px g tr te cfg g',
     driver train test px g = Some ((tr, te, cfg), g') ->
     cfg_vocab_size cfg = vocab_size tr /\
     cfg_block_size cfg = block_size tr /\
     vocab_size tr = length (data (clusters tr)) /\
     vocab_size tr = 512 /\
     block_size tr = 1023).
Proof.
  split.
  - intros pt c p ds. split; [reflexivity|]. split; [reflexivity|].
    split; [reflexivity|].
    intros idx g inp tgt g' Hperm H.
    unfold ImageDataset_getitem in H.
    apply bind_Some in H as [a [g1 [Ha H]]].
    unfold ret in H. injection H as <- <- _.
    apply encode_length in Ha. rewrite Hperm in Ha.
    change (block_size ds) with (32 * 32 - 1). split.
    + rewrite removelast_firstn_len, length_firstn. lia.
    + destruct a as [|a0 a]; simpl in *; lia.
  - intros train test px g tr te cfg g' H.
    apply driver_Some in H as [C [_ [HC [-> [_ ->]]]]].
    repeat split; auto.
Qed.

(** C7. Without a permutation argument the adapter's permutation is the
    identity on the 1024 positions, and the training and the test adapter of
    the driver have that same ordering (and the same codebook). *)
Theorem default_perm_identity :
  (forall pt c, perm (ImageDataset_init pt c None) = arange (32 * 32)) /\
  (forall pt c j, j < 32 * 32 ->
     index1 (perm (ImageDataset_init pt c None)) (Z.of_nat j)
       = Some (Z.of_nat j)) /\
  (forall train test px g tr te cfg g',
     driver train test px g = Some ((tr, te, cfg), g') ->
     perm tr = arange (32 * 32) /\ perm te = perm tr /\
     clusters te = clusters tr).
Proof.
  split; [reflexivity|]. split.
  - intros pt c j Hj. cbn [ImageDataset_init perm].
    rewrite index1_of_nat. now apply arange_nth_error.
  - intros train test px g tr te cfg g' H.
    apply driver_Some in H as [C [_ [_ [-> [-> _]]]]].
    repeat split.
Qed.

Lemma gather_arange (A : Type) (l : list A) :
  gather l (arange (length l)) = Some l.
Proof.
  destruct (@gather_total _ l (arange (length l))) as [r Hr].
  { apply perm_range. reflexivity. }
  rewrite Hr. f_equal. apply nth_error_ext. intros j.
  assert (Hlr : length r = length l)
    by (apply gather_length in Hr; now rewrite arange_length in Hr).
  destruct (Nat.lt_ge_cases j (length l)) as [Hj|Hj].
  - rewrite (gather_nth_error _ _ _ Hr (arange_nth_error Hj)).
    apply index1_of_nat.
  - transitivity (@None A); [|symmetry]; apply nth_error_None; lia.
Qed.

(** C6 (amended). An adapter constructed without a permutation draws
    nothing from the random generator: every such instantiation has the same
    permutation, the identity [arange(32*32)], and indexing the 1024 pixels
    of an image by it leaves them in raster order. *)
Theorem default_perm_keeps_raster_order (pt : base_dataset) (c : tensor) :
  let ds := ImageDataset_init pt c None in
  perm ds = arange (32 * 32) /\
  (forall pt' c', perm (ImageDataset_init pt' c' None) = perm ds) /\
  (forall (A : Type) (px : list A), length px = 32 * 32 ->
     gather px (perm ds) = Some px).
Proof.
  intros ds. split; [reflexivity|]. split; [reflexivity|].
  intros A px Hpx. cbn [ds ImageDataset_init perm].
  rewrite <- Hpx. apply gather_arange.
Qed.

(** C6 as stated fails: the training and the test adapter built without a
    permutation over the sample data have the same permutation, and no
    position of it differs from raster order. *)
Lemma default_perm_not_shuffled :
  let tr := ImageDataset_init ex_base ex_codebook None in
  let te := ImageDataset_init [] ex_codebook None in
  perm te = perm tr /\
  ~ (exists j, j < 32 * 32 /\ nth_error (perm tr) j <> Some (Z.of_nat j)).
Proof.
  intros tr te. split; [reflexivity|].
  intros [j [Hj Hne]]. apply Hne.
  cbn [tr ImageDataset_init perm]. now apply arange_nth_error.
Qed.

(** * Further properties of the clustering *)

Lemma reseed_state (x c : tensor) (g : rng) c' g' :
  reseed x c g = Some (c', g') -> g' = fun j => g (S j).
Proof.
  unfold reseed. intros H.
  apply bind_Some in H as [p [g1 [Hp H]]].
  unfold randperm in Hp. injection Hp as <- <-.
  apply bind_Some in H as [v [g2 [Hv H]]].
  apply lift_Some in Hv as [_ ->]. now apply lift_Some in H as [_ ->].
Qed.

Lemma kmeans_loop_state (x : tensor) (K niter : nat) : forall c g c' g',
  kmeans_loop x K niter c g = Some (c', g') ->
  forall j, g' j = g (niter + j).
Proof.
  induction niter as [|n IH]; intros c g c' g' H j; simpl in H.
  - unfold ret in H. now injection H as <- <-.
  - apply bind_Some in H as [c1 [g1 [H1 H]]].
    apply kmeans_iter_Some in H1 as [a [c2 [_ [_ Hrs]]]].
    apply reseed_state in Hrs. subst g1.
    rewrite (IH _ _ _ _ H j). reflexivity.
Qed.

Lemma kmeans_Some (x : tensor) (K niter : nat) (g : rng) c g' :
  kmeans x K niter g = Some (c, g') ->
  exists c0, gather (data x) (firstn K (g 0)) = Some c0 /\
             kmeans_loop x K niter (Tensor (dim x) c0) (fun j => g (S j))
               = Some (c, g').
Proof.
  unfold kmeans. intros H.
  apply bind_Some in H as [p [g1 [Hp H]]].
  unfold randperm in Hp. injection Hp as <- <-.
  apply bind_Some in H as [c0 [g2 [Hc0 H]]].
  apply lift_Some in Hc0 as [Hc0 ->]. now exists c0.
Qed.

(** X1. A run of [kmeans] that returns has drawn exactly [niter + 1]
    permutations from the generator: one for the initial centres and one in
    every pass, whether or not a centre was dead. *)
Theorem kmeans_draws (x : tensor) (K niter : nat) (g : rng) c g' :
  kmeans x K niter g = Some (c, g') ->
  forall j, g' j = g (S niter + j).
Proof.
  intros H j. apply kmeans_Some in H as [c0 [_ H]].
  now rewrite (kmeans_loop_state _ _ _ _ _ H j).
Qed.

Lemma kmeans_draws_witness :
  exists c g',
    kmeans ex_x 2 3 ex_rng = Some (c, g') /\
    forall j, g' j = ex_rng (4 + j).
Proof.
  destruct (kmeans ex_x 2 3 ex_rng) as [[c g']|] eqn:E.
  - exists c, g'. split; [reflexivity|].
    exact (@kmeans_draws ex_x 2 3 ex_rng c g' E).
  - vm_compute in E. discriminate E.
Defined.

Lemma NoDup_firstn (A : Type) (n : nat) (l : list A) :
  NoDup l -> NoDup (firstn n l).
Proof.
  intros H. rewrite <- (firstn_skipn n l) in H.
  eapply NoDup_app_remove_r, H.
Qed.

Lemma arange_NoDup n : NoDup (arange n).
Proof.
  unfold arange. apply Finite.Injective_map_NoDup; [|apply seq_NoDup].
  intros a b. apply Nat2Z.inj.
Qed.

Lemma rng_draw_NoDup n (g : rng) j : rng_ok n g -> NoDup (g j).
Proof.
  intros Hg. eapply Permutation_NoDup; [symmetry; apply Hg|].
  apply arange_NoDup.
Qed.

(** X2. Without any pass ([niter = 0]) [kmeans] returns the initial
    centres: the rows of the input at the first K positions of one random
    permutation. The positions are pairwise distinct, and there are
    [min K N] of them, so fewer than K rows come back when N < K. *)
Theorem kmeans_initial_centres (x : tensor) (K : nat) (g : rng) :
  rng_ok (length (data x)) g ->
  exists rows,
    kmeans x K 0 g = Some (Tensor (dim x) rows, fun j => g (S j)) /\
    gather (data x) (firstn K (g 0)) = Some rows /\
    length rows = Nat.min K (length (data x)) /\
    NoDup (firstn K (g 0)) /\
    forall j, j < length rows ->
      exists i, nth_error (g 0) j = Some (Z.of_nat i) /\
                i < length (data x) /\
                nth_error rows j = nth_error (data x) i.
Proof.
  intros Hg.
  destruct (@gather_total _ (data x) (firstn K (g 0))) as [rows Hrows].
  { eapply firstn_perm_range, Hg. }
  assert (Hlp : length (g 0) = length (data x)).
  { rewrite (Permutation_length (Hg 0)). apply arange_length. }
  assert (Hlen : length rows = Nat.min K (length (data x))).
  { rewrite (gather_length _ _ Hrows), length_firstn. now rewrite Hlp. }
  exists rows. split; [|split; [exact Hrows|split; [exact Hlen|split]]].
  - unfold kmeans, bind, randperm, lift. rewrite Hrows. reflexivity.
  - apply NoDup_firstn. exact (@rng_draw_NoDup (length (data x)) g 0 Hg).
  - intros j Hj.
    destruct (nth_error (firstn K (g 0)) j) as [z|] eqn:Ez.
    + pose proof (@firstn_perm_range (length (data x)) K (g 0) (Hg 0)) as Hr.
      rewrite Forall_forall in Hr.
      pose proof (Hr z (nth_error_In _ _ Ez)) as Hz.
      exists (Z.to_nat z). rewrite Z2Nat.id by lia.
      pose proof Ez as Ez'. rewrite nth_error_firstn in Ez'.
      destruct (j <? K); [|discriminate].
      split; [exact Ez'|]. split; [lia|].
      rewrite (@gather_nth_error _ (data x) (firstn K (g 0)) rows j z Hrows Ez).
      replace z with (Z.of_nat (Z.to_nat z)) at 1 by lia.
      apply index1_of_nat.
    + apply nth_error_None in Ez.
      rewrite (gather_length _ _ Hrows) in Hj. lia.
Qed.

Lemma kmeans_initial_centres_witness :
  exists rows,
    kmeans ex_x 2 0 ex_rng = Some (Tensor (dim ex_x) rows, fun j => ex_rng (S j)) /\
    gather (data ex_x) (firstn 2 (ex_rng 0)) = Some rows /\
    length rows = Nat.min 2 (length (data ex_x)) /\
    NoDup (firstn 2 (ex_rng 0)) /\
    forall j, j < length rows ->
      exists i, nth_error (ex_rng 0) j = Some (Z.of_nat i) /\
                i < length (data ex_x) /\
                nth_error rows j = nth_error (data ex_x) i.
Proof. exact (@kmeans_initial_centres ex_x 2 ex_rng ex_rng_ok). Defined.

(** X3. Re-seeding never moves a live centre: whenever the re-seeding step
    of lines 78-81 returns, every row of the recomputed centres that has no
    NaN is left exactly as it was, and the number of rows and the dimension
    do not change. *)
Theorem reseed_keeps_live_centres (x c : tensor) (g : rng)
  (c' : tensor) (g' : rng) :
  reseed x c g = Some (c', g') ->
  length (data c') = length (data c) /\ dim c' = dim c /\
  forall k, nth k (nanix c) false = false ->
    nth_error (data c') k = nth_error (data c) k.
Proof.
  intros H.
  destruct (reseed_Some _ _ _ H) as [v [_ Hma]].
  destruct (masked_assign_shape _ _ _ Hma) as [Hd Hl].
  destruct (masked_assign_nanix _ _ Hma) as [w [Hw [Hcnt _]]].
  split; [exact Hl|]. split; [exact Hd|].
  intros k Hk.
  rewrite Hw, masked_put_nth_error by (auto using nanix_length).
  now rewrite Hk.
Qed.

Lemma reseed_keeps_live_centres_witness :
  let c := Tensor 1 [[F32.nan]; [F32.div (F32.of_Z 11) (F32.of_Z 3)];
                     [F32.nan]] in
  let c' := Tensor 1 [[F32.of_Z 1]; [F32.div (F32.of_Z 11) (F32.of_Z 3)];
                      [F32.of_Z 0]] in
  reseed ex_x c ex_rng = Some (c', fun j => ex_rng (S j)) /\
  length (data c') = length (data c) /\ dim c' = dim c /\
  forall k, nth k (nanix c) false = false ->
    nth_error (data c') k = nth_error (data c) k.
Proof.
  intros c c'.
  assert (H : reseed ex_x c ex_rng = Some (c', fun j => ex_rng (S j)))
    by reflexivity.
  split; [exact H|].
  exact (@reseed_keeps_live_centres ex_x c ex_rng c'
           (fun j => ex_rng (S j)) H).
Defined.

Lemma count_true_firstn_mono (mask : list bool) : forall k1 k2,
  k1 < k2 -> nth k1 mask false = true ->
  count_true (firstn k1 mask) < count_true (firstn k2 mask).
Proof.
  induction mask as [|b mask IH]; intros k1 k2 Hk H1.
  - now destruct k1.
  - destruct k2 as [|k2]; [lia|]. destruct k1 as [|k1]; simpl in *.
    + subst b. unfold count_true. simpl. lia.
    + assert (Hlt : k1 < k2) by lia. specialize (IH k1 k2 Hlt H1).
      unfold count_true in *. destruct b; simpl; lia.
Qed.

(** X4. With K <= N, two different dead centres of a pass are never
    re-seeded from the same position of the input: their replacements are
    the rows at two different entries of the one fresh permutation. *)
Theorem reseed_positions_distinct (x : tensor) (a : list nat) (K : nat)
  (c : tensor) (g : rng) :
  recompute x a K = Some c ->
  K <= length (data x) ->
  rng_ok (length (data x)) g ->
  exists c',
    reseed x c g = Some (c', fun j => g (S j)) /\
    forall k1 k2,
      nth k1 (nanix c) false = true -> nth k2 (nanix c) false = true ->
      k1 <> k2 ->
      exists i1 i2,
        In i1 (g 0) /\ In i2 (g 0) /\ i1 <> i2 /\
        nth_error (data c') k1 = index1 (data x) i1 /\
        nth_error (data c') k2 = index1 (data x) i2.
Proof.
  intros Hc HK Hg.
  destruct (recompute_Some _ _ _ Hc) as [_ [HlenK _]].
  rewrite <- HlenK in HK.
  destruct (reseed_result x c HK Hg)
    as [v [c' [Hv [Hlen [_ [Hrs [_ [_ [Hdead _]]]]]]]]].
  exists c'. split; [exact Hrs|].
  assert (Hpos : forall k, nth k (nanix c) false = true ->
            exists i, nth_error (g 0) (count_true (firstn k (nanix c))) = Some i /\
                      nth_error (data c') k = index1 (data x) i).
  { intros k Hk. destruct (Hdead k Hk) as [r [Hr Hk']].
    destruct (mapM_nth_error _ _ _ Hv Hr) as [i [Hi Hix]].
    rewrite nth_error_firstn in Hi.
    destruct (_ <? _); [|discriminate].
    exists i. split; [exact Hi | congruence]. }
  intros k1 k2 H1 H2 Hne.
  destruct (Hpos k1 H1) as [i1 [Hi1 Hc1]].
  destruct (Hpos k2 H2) as [i2 [Hi2 Hc2]].
  exists i1, i2.
  split; [eapply nth_error_In, Hi1|]. split; [eapply nth_error_In, Hi2|].
  split; [|split; assumption].
  intros ->.
  pose proof (@rng_draw_NoDup (length (data x)) g 0 Hg) as Hnd.
  rewrite NoDup_nth_error in Hnd.
  assert (Hr : count_true (firstn k1 (nanix c))
               = count_true (firstn k2 (nanix c))).
  { apply Hnd; [|congruence].
    apply nth_error_Some. rewrite Hi1. discriminate. }
  destruct (Nat.lt_total k1 k2) as [Hlt|[Heq|Hgt]]; [|contradiction|].
  - pose proof (@count_true_firstn_mono (nanix c) k1 k2 Hlt H1). lia.
  - pose proof (@count_true_firstn_mono (nanix c) k2 k1 Hgt H2). lia.
Qed.

Lemma reseed_positions_distinct_witness :
  let c := Tensor 1 [[F32.nan]; [F32.div (F32.of_Z 11) (F32.of_Z 3)];
                     [F32.nan]] in
  exists c',
    reseed ex_x c ex_rng = Some (c', fun j => ex_rng (S j)) /\
    forall k1 k2,
      nth k1 (nanix c) false = true -> nth k2 (nanix c) false = true ->
      k1 <> k2 ->
      exists i1 i2,
        In i1 (ex_rng 0) /\ In i2 (ex_rng 0) /\ i1 <> i2 /\
        nth_error (data c') k1 = index1 (data ex_x) i1 /\
        nth_error (data c') k2 = index1 (data ex_x) i2.
Proof.
  intros c.
  apply (@reseed_positions_distinct ex_x [1; 1; 1] 3 c ex_rng).
  - reflexivity.
  - simpl. lia.
  - exact ex_rng_ok.
Defined.

Lemma nearest_total (x c : tensor) :
  broadcastable (dim x) (dim c) = true -> 0 < length (data c) ->
  exists a, nearest x c = Some a.
Proof.
  intros Hb HK. unfold nearest, sqdist_matrix, argmin1. rewrite Hb.
  destruct (Nat.eqb_spec (length (data c)) 0) as [E|_]; [lia|].
  apply mapM_total. apply Forall_forall. intros row Hrow.
  apply in_map_iff in Hrow as [xr [<- _]].
  destruct (data c) as [|cr rest]; [simpl in HK; lia|].
  simpl. eauto.
Qed.

Lemma nearest_None_iff (x c : tensor) :
  nearest x c = None <->
  length (data c) = 0 \/ broadcastable (dim x) (dim c) = false.
Proof.
  split.
  - intros H.
    destruct (broadcastable (dim x) (dim c)) eqn:Hb; [|now right].
    destruct (Nat.eq_dec (length (data c)) 0) as [E|E]; [now left|].
    destruct (@nearest_total x c Hb) as [a Ha]; [lia|]. congruence.
  - unfold nearest, sqdist_matrix, argmin1. intros [H|H].
    + rewrite H. simpl. now destruct (broadcastable (dim x) (dim c)).
    + now rewrite H.
Qed.

(** X5. The lookup raises in exactly two cases: the codebook has no entry,
    or the last dimensions of samples and codebook do not broadcast (they
    differ and neither is 1). An empty set of samples alone is no error. *)
Theorem nearest_raises_iff (x c : tensor) :
  nearest x c = None <->
  length (data c) = 0 \/ broadcastable (dim x) (dim c) = false.
Proof. exact (nearest_None_iff x c). Qed.

Lemma gather_nil_source (A : Type) (idx : list Z) (r : list A) :
  gather [] idx = Some r -> r = [].
Proof.
  destruct idx as [|i idx]; simpl; [now intros [= <-]|].
  unfold gather. simpl. unfold index1. simpl.
  destruct (0 <=? i)%Z.
  - now destruct (Z.to_nat i).
  - destruct (0 <=? i)%Z; [now destruct (Z.to_nat (0 + i))|discriminate].
Qed.

(** X6. With at least one pass, [kmeans] raises whenever it is asked for no
    centre (K = 0) or is given no sample (N = 0), whatever the generator
    draws: the first assignment takes [argmin] over an empty set of
    centres. *)
Theorem kmeans_raises_without_centres (x : tensor) (K n : nat) (g : rng) :
  K = 0 \/ data x = [] -> kmeans x K (S n) g = None.
Proof.
  intros H. unfold kmeans, bind, randperm, lift.
  destruct (gather (data x) (firstn K (g 0))) as [c0|] eqn:E; [|reflexivity].
  assert (Hc0 : c0 = []).
  { destruct H as [->|H].
    - simpl in E. now injection E as <-.
    - rewrite H in E. eapply gather_nil_source, E. }
  subst c0. simpl. unfold bind, kmeans_iter, bind, lift, assign.
  assert (Hn : nearest x (Tensor (dim x) []) = None)
    by (apply nearest_None_iff; now left).
  now rewrite Hn.
Qed.

Lemma kmeans_raises_without_centres_witness :
  kmeans (Tensor 3 []) 2 (S 7) ex_rng = None.
Proof.
  apply (@kmeans_raises_without_centres (Tensor 3 []) 2 7 ex_rng).
  now right.
Defined.

(** X7. Whenever [kmeans] returns after at least one pass, the codebook has
    exactly K rows and the dimension of the input, also when N < K (where
    the initial codebook had only N rows). *)
Theorem kmeans_rows_after_pass (x : tensor) (K n : nat) (g : rng) c g' :
  kmeans x K (S n) g = Some (c, g') ->
  length (data c) = K /\ dim c = dim x.
Proof.
  intros H. apply kmeans_Some in H as [c0 [_ H]].
  apply kmeans_loop_shape in H. tauto.
Qed.

Lemma kmeans_rows_after_pass_witness :
  exists c g',
    kmeans ex_x 4 (S 1) ex_rng = Some (c, g') /\
    length (data c) = 4 /\ dim c = dim ex_x.
Proof.
  destruct (kmeans ex_x 4 (S 1) ex_rng) as [[c g']|] eqn:E.
  - exists c, g'. split; [reflexivity|].
    exact (@kmeans_rows_after_pass ex_x 4 1 ex_rng c g' E).
  - vm_compute in E. discriminate E.
Defined.

(** * Further properties of the adapter *)

Lemma index1_Some_range (A : Type) (l : list A) i a :
  index1 l i = Some a ->
  (- Z.of_nat (length l) <= i < Z.of_nat (length l))%Z.
Proof.
  unfold index1.
  destruct (Z.leb_spec 0 i).
  - intros E. assert (Hn : nth_error l (Z.to_nat i) <> None) by congruence.
    apply nth_error_Some in Hn. lia.
  - destruct (Z.leb_spec (- Z.of_nat (length l)) i); [|discriminate].
    intros _. lia.
Qed.

Lemma index1_range_neg (A : Type) (l : list A) i :
  (- Z.of_nat (length l) <= i < Z.of_nat (length l))%Z ->
  exists a, index1 l i = Some a.
Proof.
  intros H. unfold index1.
  destruct (Z.leb_spec 0 i).
  - destruct (nth_error l (Z.to_nat i)) as [a|] eqn:E; [now exists a|].
    apply nth_error_None in E. lia.
  - destruct (Z.leb_spec (- Z.of_nat (length l)) i); [|lia].
    destruct (nth_error l (Z.to_nat (Z.of_nat (length l) + i))) as [a|] eqn:E;
      [now exists a|].
    apply nth_error_None in E. lia.
Qed.

Lemma gather_Some_iff (A : Type) (l : list A) (idx : list Z) :
  (exists r, gather l idx = Some r) <->
  Forall (fun i => - Z.of_nat (length l) <= i < Z.of_nat (length l))%Z idx.
Proof.
  split.
  - intros [r Hr]. apply mapM_Forall2 in Hr.
    induction Hr as [|i a idx r Hi _ IH]; constructor; auto.
    eapply index1_Some_range, Hi.
  - intros H. apply mapM_total. eapply Forall_impl; [|exact H].
    intros i. apply index1_range_neg.
Qed.

Lemma view3_length (A : Type) (n : nat) : forall (l : list A) r,
  length l <= n -> view3 l = Some r -> length l = 3 * length r.
Proof.
  induction n as [|n IH]; intros l r Hn H.
  - destruct l; [|simpl in Hn; lia]. simpl in H. now injection H as <-.
  - destruct l as [|a [|b [|c l]]]; simpl in H; try discriminate.
    + now injection H as <-.
    + destruct (view3 l) as [r'|] eqn:E; [|discriminate].
      simpl in H. injection H as <-. simpl in *.
      rewrite (IH l r') by (auto; lia). lia.
Qed.

Lemma view3_Some_iff (A : Type) (l : list A) (n : nat) :
  (exists r, view3 l = Some r /\ length r = n) <-> length l = 3 * n.
Proof.
  split.
  - intros [r [Hr <-]]. eapply view3_length; [|exact Hr]. reflexivity.
  - apply view3_total.
Qed.

Lemma getitem_Some_iff (ds : ImageDataset) (idx : Z) (g : rng) :
  (exists r, ImageDataset_getitem ds idx g = Some (r, g)) <->
  exists img y n,
    index1 (pt_dataset ds) idx = Some (img, y) /\
    length img = 3 * n /\
    Forall (fun i => - Z.of_nat n <= i < Z.of_nat n)%Z (perm ds) /\
    0 < length (data (clusters ds)) /\
    broadcastable 3 (dim (clusters ds)) = true.
Proof.
  unfold ImageDataset_getitem, encode, bind, lift, ret. split.
  - intros [r H].
    destruct (index1 (pt_dataset ds) idx) as [[img y]|] eqn:Eidx;
      [|discriminate].
    simpl in H.
    destruct (view3 img) as [x|] eqn:Ex; [|discriminate].
    destruct (gather x (perm ds)) as [x'|] eqn:Ex'; [|discriminate].
    destruct (nearest _ (clusters ds)) as [a|] eqn:Ea; [|discriminate].
    exists img, y, (length x).
    split; [reflexivity|]. split.
    { eapply view3_length; [|exact Ex]. reflexivity. }
    split.
    { apply gather_Some_iff. now exists x'. }
    destruct (Nat.eq_dec (length (data (clusters ds))) 0) as [E0|E0].
    { assert (Hn : nearest (Tensor 3 (map (map F32.of_Z) x')) (clusters ds)
                   = None) by (apply nearest_None_iff; now left).
      congruence. }
    split; [lia|].
    destruct (broadcastable 3 (dim (clusters ds))) eqn:Hb; [reflexivity|].
    assert (Hn : nearest (Tensor 3 (map (map F32.of_Z) x')) (clusters ds)
                 = None) by (apply nearest_None_iff; now right).
    congruence.
  - intros [img [y [n [Hidx [Himg [Hperm [HK Hb]]]]]]].
    rewrite Hidx. simpl.
    destruct (view3_total n img Himg) as [x [Hx Hlx]]. rewrite Hx.
    rewrite <- Hlx in Hperm. apply gather_Some_iff in Hperm as [x' Hx'].
    rewrite Hx'.
    destruct (@nearest_total (Tensor 3 (map (map F32.of_Z) x')) (clusters ds))
      as [a Ha]; auto.
    rewrite Ha. eauto.
Qed.

(** X8. [__getitem__] raises for an index outside the base dataset. For an
    index inside it (negative indices counting from the end) and a non-empty
    image, it returns exactly when the image has a whole number n of
    three-byte pixels, every entry of the permutation is a valid position of
    those n pixels (from -n to n - 1), the codebook is not empty and its
    dimension broadcasts against 3; in every other case it raises. *)
Theorem getitem_returns_iff (ds : ImageDataset) (idx : Z) (g : rng) :
  (index1 (pt_dataset ds) idx = None ->
   ImageDataset_getitem ds idx g = None) /\
  forall img y,
    index1 (pt_dataset ds) idx = Some (img, y) -> img <> [] ->
    ((exists r, ImageDataset_getitem ds idx g = Some (r, g)) <->
     exists n,
       0 < n /\ length img = 3 * n /\
       Forall (fun i => - Z.of_nat n <= i < Z.of_nat n)%Z (perm ds) /\
       0 < length (data (clusters ds)) /\
       broadcastable 3 (dim (clusters ds)) = true).
Proof.
  split.
  - intros H. unfold ImageDataset_getitem, encode, bind, lift.
    now rewrite H.
  - intros img y Hidx Hne. rewrite getitem_Some_iff. split.
    + intros [img' [y' [n [Hidx' [Hl H]]]]].
      assert (img' = img) by congruence. subst img'.
      exists n. split; [|split; [exact Hl | exact H]].
      destruct n; [|lia]. destruct img; [contradiction | discriminate].
    + intros [n [_ [Hl H]]]. now exists img, y, n.
Qed.

Lemma In_removelast (A : Type) (l : list A) a : In a (removelast l) -> In a l.
Proof.
  induction l as [|b [|c l] IH]; simpl in *; auto.
  intros [H|H]; auto.
Qed.

Lemma In_tl (A : Type) (l : list A) a : In a (tl l) -> In a l.
Proof. destruct l; simpl; auto. Qed.

Lemma getitem_Some (ds : ImageDataset) (idx : Z) g inp tgt g' :
  ImageDataset_getitem ds idx g = Some ((inp, tgt), g') ->
  exists a, encode ds idx g = Some (a, g') /\
            inp = removelast a /\ tgt = tl a.
Proof.
  unfold ImageDataset_getitem. intros H.
  apply bind_Some in H as [a [g1 [Ha H]]].
  unfold ret in H. injection H as <- <- <-. now exists a.
Qed.

Lemma encode_tokens_bound (ds : ImageDataset) (idx : Z) g a g' :
  encode ds idx g = Some (a, g') ->
  Forall (fun t => t < length (data (clusters ds))) a.
Proof.
  unfold encode. intros H.
  apply bind_Some in H as [xy [g1 [_ H]]].
  apply bind_Some in H as [x [g2 [_ H]]].
  apply bind_Some in H as [x' [g3 [_ H]]].
  apply lift_Some in H as [H _].
  apply nearest_rows in H as [_ H].
  apply Forall_forall. intros t Ht.
  apply In_nth_error in Ht as [n Hn].
  destruct (H n t Hn) as [xr [_ Harg]].
  apply argmin_row_spec in Harg as [Hlt _].
  now rewrite length_map in Hlt.
Qed.

(** X9. Every token of an item, in the input and in the target sequence, is
    smaller than [vocab_size] of the adapter that returned it, so it is a
    valid row of the codebook and of an embedding table of that size. *)
Theorem getitem_tokens_in_vocab (pt : base_dataset) (c : tensor)
  (p : option (list Z)) (idx : Z) (g : rng) inp tgt g' :
  let ds := ImageDataset_init pt c p in
  ImageDataset_getitem ds idx g = Some ((inp, tgt), g') ->
  Forall (fun t => t < vocab_size ds) inp /\
  Forall (fun t => t < vocab_size ds) tgt.
Proof.
  intros ds H. apply getitem_Some in H as [a [Ha [-> ->]]].
  apply encode_tokens_bound in Ha. rewrite Forall_forall in Ha.
  change (vocab_size ds) with (length (data (clusters ds))).
  split; apply Forall_forall; intros t Ht; apply Ha.
  - now apply In_removelast.
  - now apply In_tl.
Qed.

Lemma ex_getitem :
  exists a,
    ImageDataset_getitem (ImageDataset_init ex_base ex_codebook None) 0 ex_rng
      = Some ((removelast a, tl a), ex_rng).
Proof.
  destruct (@encode_total (ImageDataset_init ex_base ex_codebook None) 0
              ex_image 3 (32 * 32) ex_rng) as [a [Ha _]].
  - reflexivity.
  - exact ex_image_length.
  - apply Permutation_refl.
  - reflexivity.
  - apply Nat.lt_0_succ.
  - exists a. unfold ImageDataset_getitem, bind. rewrite Ha. reflexivity.
Qed.

Lemma getitem_tokens_in_vocab_witness :
  let ds := ImageDataset_init ex_base ex_codebook None in
  exists inp tgt g',
    ImageDataset_getitem ds 0 ex_rng = Some ((inp, tgt), g') /\
    Forall (fun t => t < vocab_size ds) inp /\
    Forall (fun t => t < vocab_size ds) tgt.
Proof.
  intros ds. destruct ex_getitem as [a E].
  exists (removelast a), (tl a), ex_rng. split; [exact E|].
  exact (@getitem_tokens_in_vocab ex_base ex_codebook None 0 ex_rng
           (removelast a) (tl a) ex_rng E).
Defined.

Lemma nth_error_removelast (A : Type) (l : list A) j :
  S j < length l -> nth_error (removelast l) j = nth_error l j.
Proof.
  intros H. rewrite removelast_firstn_len, nth_error_firstn.
  destruct (Nat.ltb_spec j (Nat.pred (length l))); [reflexivity | lia].
Qed.

Lemma nth_error_tl (A : Type) (l : list A) j :
  nth_error (tl l) j = nth_error l (S j).
Proof. destruct l; [now destruct j | reflexivity]. Qed.

(** X10. For every item an adapter returns, input and target have the
    same length: one element less than the permutation when the permutation
    is not empty, and none when it is empty. The target is the input
    shifted by one: element [i] of the target is element [i + 1] of the
    input. *)
Theorem getitem_target_is_shift (ds : ImageDataset) (idx : Z) (g : rng)
  inp tgt g' :
  ImageDataset_getitem ds idx g = Some ((inp, tgt), g') ->
  length inp = length tgt /\
  (perm ds = [] -> inp = [] /\ tgt = []) /\
  (perm ds <> [] -> S (length inp) = length (perm ds)) /\
  forall i, S i < length inp -> nth_error tgt i = nth_error inp (S i).
Proof.
  intros H. apply getitem_Some in H as [a [Ha [-> ->]]].
  apply encode_length in Ha.
  assert (Hl1 : length (removelast a) = length a - 1).
  { rewrite removelast_firstn_len, length_firstn. lia. }
  assert (Hl2 : length (tl a) = length a - 1) by (destruct a; simpl; lia).
  split; [congruence|]. split; [|split].
  - intros Hp. rewrite Hp in Ha. destruct a; [|discriminate]. now split.
  - intros Hp. rewrite Hl1, <- Ha.
    destruct (perm ds); [contradiction|]. simpl in Ha. lia.
  - intros i Hi. rewrite nth_error_tl, nth_error_removelast; [reflexivity|].
    lia.
Qed.

Lemma getitem_target_is_shift_witness :
  let ds := ImageDataset_init ex_base ex_codebook None in
  exists inp tgt g',
    ImageDataset_getitem ds 0 ex_rng = Some ((inp, tgt), g') /\
    length inp = length tgt /\
    (perm ds = [] -> inp = [] /\ tgt = []) /\
    (perm ds <> [] -> S (length inp) = length (perm ds)) /\
    forall i, S i < length inp -> nth_error tgt i = nth_error inp (S i).
Proof.
  intros ds. destruct ex_getitem as [a E].
  exists (removelast a), (tl a), ex_rng. split; [exact E|].
  exact (@getitem_target_is_shift ds 0 ex_rng (removelast a) (tl a) ex_rng E).
Defined.

(** ** The inverse permutation, in both directions *)

Lemma argsort_length (v : list Z) : length (argsort v) = length v.
Proof.
  rewrite (Permutation_length (argsort_perm v)). apply arange_length.
Qed.

Lemma perm_nth_error (v : list Z) n i :
  Permutation v (arange n) -> i < n ->
  exists j, j < n /\ nth_error v i = Some (Z.of_nat j).
Proof.
  intros Hp Hi.
  assert (Hl : length v = n)
    by (rewrite (Permutation_length Hp); apply arange_length).
  destruct (nth_error v i) as [z|] eqn:E.
  - assert (Hz : In z (arange n))
      by (eapply Permutation_in; [exact Hp | eapply nth_error_In, E]).
    apply arange_In in Hz. exists (Z.to_nat z). split; [lia|].
    now rewrite Z2Nat.id by lia.
  - apply nth_error_None in E. lia.
Qed.

(** The [argsort] of a permutation sends the value at a position back to
    that position. *)
Lemma argsort_left_inverse (v : list Z) n i j :
  Permutation v (arange n) ->
  nth_error v i = Some (Z.of_nat j) ->
  nth_error (argsort v) j = Some (Z.of_nat i).
Proof.
  intros Hp Hi.
  assert (Hl : length v = n)
    by (rewrite (Permutation_length Hp); apply arange_length).
  assert (Hj : j < n).
  { assert (Hz : In (Z.of_nat j) (arange n))
      by (eapply Permutation_in; [exact Hp | eapply nth_error_In, Hi]).
    apply arange_In in Hz. lia. }
  destruct (@argsort_inverse v n j Hp Hj) as [i' [Hi' Hv]].
  assert (Hnd : NoDup v).
  { eapply Permutation_NoDup; [symmetry; exact Hp | apply arange_NoDup]. }
  rewrite NoDup_nth_error in Hnd.
  assert (i' = i).
  { apply Hnd; [|congruence].
    apply nth_error_Some. rewrite Hv. discriminate. }
  now subst i'.
Qed.

Lemma gather_after_argsort (A : Type) (s : list A) (v : list Z) :
  Permutation v (arange (length s)) ->
  exists d, gather s (argsort v) = Some d /\ gather d v = Some s.
Proof.
  intros Hp.
  assert (Hlv : length v = length s)
    by (rewrite (Permutation_length Hp); apply arange_length).
  destruct (@gather_total _ s (argsort v)) as [d Hd].
  { apply perm_range. rewrite <- Hlv. apply argsort_perm. }
  assert (Hld : length d = length s)
    by (rewrite (gather_length _ _ Hd), argsort_length; exact Hlv).
  destruct (@gather_total _ d v) as [r Hr].
  { rewrite Hld. now apply perm_range. }
  exists d. split; [exact Hd|]. rewrite Hr. f_equal.
  apply nth_error_ext. intros i.
  assert (Hlr : length r = length s)
    by (rewrite (gather_length _ _ Hr); exact Hlv).
  destruct (Nat.lt_ge_cases i (length s)) as [Hi|Hi].
  - destruct (@perm_nth_error v (length s) i Hp Hi) as [j [Hj Hvi]].
    rewrite (@gather_nth_error _ d v r i _ Hr Hvi), index1_of_nat.
    pose proof (@argsort_left_inverse v (length s) i j Hp Hvi) as Hinv.
    rewrite (@gather_nth_error _ s (argsort v) d j _ Hd Hinv).
    apply index1_of_nat.
  - transitivity (@None A); [|symmetry]; apply nth_error_None; lia.
Qed.

(** X11. The inverse permutation of line 149 inverts the adapter's
    permutation on both sides: [perm[iperm[j]] = j] and
    [iperm[perm[i]] = i] for all 1024 positions, and re-ordering a decoded
    sequence by the permutation gives the sequence that was decoded. *)
Theorem iperm_two_sided_inverse (pt : base_dataset) (c : tensor)
  (p : option (list Z)) :
  (forall q, p = Some q -> Permutation q (arange (32 * 32))) ->
  let ds := ImageDataset_init pt c p in
  (forall j, j < 32 * 32 ->
     exists i, nth_error (iperm ds) j = Some (Z.of_nat i) /\
               nth_error (perm ds) i = Some (Z.of_nat j)) /\
  (forall i, i < 32 * 32 ->
     exists j, nth_error (perm ds) i = Some (Z.of_nat j) /\
               nth_error (iperm ds) j = Some (Z.of_nat i)) /\
  (forall (A : Type) (s : list A), length s = 32 * 32 ->
     exists d, decode ds s = Some d /\ gather d (perm ds) = Some s).
Proof.
  intros Hp ds.
  assert (H : Permutation (perm ds) (arange (32 * 32))).
  { unfold ds, ImageDataset_init. cbn [perm].
    destruct p as [q|]; [now apply Hp | reflexivity]. }
  split; [|split].
  - intros j Hj. exact (@argsort_inverse (perm ds) (32 * 32) j H Hj).
  - intros i Hi.
    destruct (@perm_nth_error (perm ds) (32 * 32) i H Hi) as [j [_ Hj]].
    exists j. split; [exact Hj|].
    exact (@argsort_left_inverse (perm ds) (32 * 32) i j H Hj).
  - intros A s Hs. rewrite <- Hs in H.
    exact (gather_after_argsort s H).
Qed.

Lemma iperm_two_sided_inverse_witness :
  let ds := ImageDataset_init [] (Tensor 3 []) (Some (rev (arange (32 * 32)))) in
  (forall j, j < 32 * 32 ->
     exists i, nth_error (iperm ds) j = Some (Z.of_nat i) /\
               nth_error (perm ds) i = Some (Z.of_nat j)) /\
  (forall i, i < 32 * 32 ->
     exists j, nth_error (perm ds) i = Some (Z.of_nat j) /\
               nth_error (iperm ds) j = Some (Z.of_nat i)) /\
  (forall (A : Type) (s : list A), length s = 32 * 32 ->
     exists d, decode ds s = Some d /\ gather d (perm ds) = Some s).
Proof.
  apply (@iperm_two_sided_inverse [] (Tensor 3 [])
           (Some (rev (arange (32 * 32))))).
  intros q Hq.
  apply (Permutation_trans (l' := rev (arange (32 * 32)))).
  - apply (f_equal (fun o => match o with Some q' => q' | None => q end)) in Hq.
    rewrite <- Hq. apply Permutation_refl.
  - apply Permutation_sym, Permutation_rev.
Defined.

Lemma argsort_arange n : argsort (arange n) = arange n.
Proof.
  apply nth_error_ext. intros j.
  destruct (Nat.lt_ge_cases j n) as [Hj|Hj].
  - destruct (@argsort_inverse (arange n) n j (Permutation_refl _) Hj)
      as [i [Hi Hv]].
    assert (Hin : i < n).
    { rewrite <- (arange_length n). apply nth_error_Some.
      rewrite Hv. discriminate. }
    rewrite (arange_nth_error Hin) in Hv. injection Hv as Hv.
    apply Nat2Z.inj in Hv. subst i.
    now rewrite (arange_nth_error Hj).
  - transitivity (@None Z); [|symmetry]; apply nth_error_None.
    + rewrite argsort_length, arange_length. exact Hj.
    + rewrite arange_length. exact Hj.
Qed.

(** X12. In the reference flow, where the adapter has the default
    permutation, the inverse permutation is again [arange(32*32)] and the
    decode step leaves every generated sequence of 1024 indices as it
    is. *)
Theorem default_decode_is_identity (pt : base_dataset) (c : tensor) :
  let ds := ImageDataset_init pt c None in
  iperm ds = arange (32 * 32) /\
  forall (A : Type) (pixels : list A), length pixels = 32 * 32 ->
    decode ds pixels = Some pixels.
Proof.
  intros ds.
  assert (H : iperm ds = arange (32 * 32)).
  { unfold iperm, ds, ImageDataset_init. cbn [perm]. apply argsort_arange. }
  split; [exact H|].
  intros A pixels Hp. unfold decode. rewrite H, <- Hp. apply gather_arange.
Qed.

(** * The pixel sample and the whole reference flow *)

Lemma view3_rows (A : Type) (n : nat) : forall (l : list A) r,
  length l <= n -> view3 l = Some r ->
  Forall (fun row => length row = 3 /\ forall a, In a row -> In a l) r.
Proof.
  induction n as [|n IH]; intros l r Hn H.
  - destruct l; [|simpl in Hn; lia]. simpl in H. injection H as <-.
    constructor.
  - destruct l as [|a [|b [|c l]]]; simpl in H; try discriminate.
    + injection H as <-. constructor.
    + destruct (view3 l) as [r'|] eqn:E; [|discriminate].
      simpl in H. injection H as <-. constructor.
      * split; [reflexivity|]. intros z Hz. simpl in *. tauto.
      * assert (Hl : length l <= n) by (simpl in Hn; lia).
        eapply Forall_impl; [|exact (IH l r' Hl E)].
        intros row [H3 Hin]. split; [exact H3|].
        intros z Hz. simpl. auto.
Qed.

Lemma view_rows_Some (A : Type) (n : nat) (l : list A) v :
  view_rows n l = Some v ->
  view3 l = Some v /\ length v = n /\ length l = 3 * n.
Proof.
  unfold view_rows. destruct (view3 l) as [r|] eqn:E; [|discriminate].
  destruct (Nat.eqb_spec (length r) n) as [Hn|]; [|discriminate].
  intros H. injection H as <-. split; [reflexivity|]. split; [exact Hn|].
  rewrite <- Hn. eapply view3_length; [|exact E]. reflexivity.
Qed.

Lemma view_rows_total (A : Type) (n : nat) (l : list A) :
  length l = 3 * n -> exists v, view_rows n l = Some v.
Proof.
  intros H. destruct (view3_total n l H) as [r [Hr Hl]].
  exists r. unfold view_rows. now rewrite Hr, Hl, Nat.eqb_refl.
Qed.

Lemma view_rows_None (A : Type) (n : nat) (l : list A) :
  length l <> 3 * n -> view_rows n l = None.
Proof.
  intros H. destruct (view_rows n l) as [v|] eqn:E; [|reflexivity].
  apply view_rows_Some in E. tauto.
Qed.

Lemma pluck_rgb_spec (x : image) (g : rng) :
  length x = 3 * (32 * 32) ->
  Permutation (g 0) (arange (32 * 32)) ->
  exists v rows,
    view3 x = Some v /\ length v = 32 * 32 /\
    gather v (firstn 5 (g 0)) = Some rows /\
    length rows = 5 /\
    pluck_rgb x g = Some (rows, fun j => g (S j)).
Proof.
  intros Hx Hp.
  destruct (view_rows_total (32 * 32) x Hx) as [v Hv].
  destruct (view_rows_Some _ _ Hv) as [Hv3 [Hlv _]].
  destruct (@gather_total _ v (firstn 5 (g 0))) as [rows Hrows].
  { rewrite Hlv. now apply firstn_perm_range. }
  exists v, rows. split; [exact Hv3|]. split; [exact Hlv|].
  split; [exact Hrows|]. split.
  - rewrite (gather_length _ _ Hrows).
    apply (@firstn_perm_length (32 * 32) 5 (g 0) Hp). lia.
  - unfold pluck_rgb, bind, lift, randperm. rewrite Hv, Hrows. reflexivity.
Qed.

(** What the comprehension of line 65 yields, image by image. *)
Lemma pluck_all (train : base_dataset) : forall (g : rng),
  Forall (fun xy => length (fst xy) = 3 * (32 * 32)) train ->
  (forall j, j < length train -> Permutation (g j) (arange (32 * 32))) ->
  exists ts,
    mapM_M (fun xy => pluck_rgb (fst xy)) train g
      = Some (ts, fun j => g (length train + j)) /\
    length ts = length train /\
    forall k rows, nth_error ts k = Some rows ->
      exists xy v, nth_error train k = Some xy /\
                   view3 (fst xy) = Some v /\
                   gather v (firstn 5 (g k)) = Some rows /\
                   length rows = 5.
Proof.
  induction train as [|xy train IH]; intros g Hwf Hg.
  - exists []. split; [reflexivity|]. split; [reflexivity|].
    intros [|k] rows H; discriminate.
  - inversion Hwf as [|xy' train' Hxy Hwf']; subst.
    destruct (@pluck_rgb_spec (fst xy) g Hxy) as [v [rows [Hv [_ [Hr [Hl Hp]]]]]].
    { apply Hg. simpl. lia. }
    destruct (IH (fun j => g (S j)) Hwf') as [ts [Hts [Hlen HF]]].
    { intros j Hj. apply Hg. simpl. lia. }
    exists (rows :: ts). split; [|split].
    + simpl. unfold bind. rewrite Hp, Hts. reflexivity.
    + simpl. now rewrite Hlen.
    + intros [|k] rows' H; simpl in H.
      * injection H as <-. now exists xy, v.
      * exact (HF k rows' H).
Qed.

Lemma concat_const_length (A : Type) (m : nat) (ts : list (list A)) :
  Forall (fun rows => length rows = m) ts ->
  length (concat ts) = m * length ts.
Proof.
  induction 1 as [|rows ts Hr _ IH]; simpl; [lia|].
  rewrite length_app, IH, Hr. lia.
Qed.

Lemma concat_const_nth_error (A : Type) (m : nat) (ts : list (list A)) :
  Forall (fun rows => length rows = m) ts ->
  forall k j rows, nth_error ts k = Some rows -> j < m ->
    nth_error (concat ts) (m * k + j) = nth_error rows j.
Proof.
  induction 1 as [|r ts Hr _ IH]; intros [|k] j rows Hk Hj; simpl in Hk;
    try discriminate.
  - injection Hk as <-. simpl. rewrite Nat.mul_0_r. simpl.
    apply nth_error_app1. lia.
  - simpl. rewrite nth_error_app2 by lia.
    replace (m * S k + j - length r) with (m * k + j) by lia.
    now apply IH.
Qed.

(** The conversion of a byte never gives NaN (checked on all 256 bytes). *)
Lemma of_Z_uint8 z : uint8 z -> F32.isnan (F32.of_Z z) = false.
Proof.
  intros Hz.
  assert (Hall : forallb (fun z => negb (F32.isnan (F32.of_Z z)))
                   (arange 256) = true) by (vm_compute; reflexivity).
  rewrite forallb_forall in Hall.
  apply negb_true_iff, Hall, arange_In. unfold uint8 in Hz. lia.
Qed.

Lemma row_nan_of_uint8 (pix : list Z) :
  Forall uint8 pix -> row_nan (map F32.of_Z pix) = false.
Proof.
  induction 1 as [|z pix Hz _ IH]; simpl; [reflexivity|].
  now rewrite (@of_Z_uint8 z Hz).
Qed.

Lemma pixel_sample_spec (train : base_dataset) (g : rng) :
  train <> [] ->
  Forall (fun xy => wf_image (fst xy)) train ->
  (forall j, j < length train -> Permutation (g j) (arange (32 * 32))) ->
  exists px,
    pixel_sample train g = Some (px, fun j => g (length train + j)) /\
    dim px = 3 /\ length (data px) = 5 * length train /\
    wf_tensor px /\ nan_free px /\
    forall k j, k < length train -> j < 5 ->
      exists xy v i pix,
        nth_error train k = Some xy /\ view3 (fst xy) = Some v /\
        nth_error (g k) j = Some i /\ index1 v i = Some pix /\
        nth_error (data px) (5 * k + j) = Some (map F32.of_Z pix).
Proof.
  intros Hne Hwf Hg.
  assert (Hlen3 : Forall (fun xy => length (fst xy) = 3 * (32 * 32)) train).
  { eapply Forall_impl; [|exact Hwf]. intros xy [H _]. exact H. }
  destruct (@pluck_all train g Hlen3 Hg) as [ts [Hts [Hlts HF]]].
  assert (H5 : Forall (fun rows => length rows = 5) ts).
  { apply Forall_forall. intros rows Hin.
    apply In_nth_error in Hin as [k Hk].
    destruct (HF k rows Hk) as [xy [v [_ [_ [_ Hl]]]]]. exact Hl. }
  assert (Hcat : cat ts = Some (concat ts)).
  { destruct ts as [|r ts]; [|reflexivity].
    destruct train; [contradiction | discriminate]. }
  assert (Hpix : forall pix, In pix (concat ts) ->
            length pix = 3 /\ Forall uint8 pix).
  { intros pix Hin. apply in_concat in Hin as [rows [Hrows Hin]].
    apply In_nth_error in Hrows as [k Hk].
    destruct (HF k rows Hk) as [xy [v [Hxy [Hv [Hgat _]]]]].
    pose proof (gather_In _ _ Hgat) as Hinv. rewrite Forall_forall in Hinv.
    pose proof (@view3_rows _ (length (fst xy)) (fst xy) v (Nat.le_refl _) Hv)
      as Hrows3.
    rewrite Forall_forall in Hrows3.
    destruct (Hrows3 pix (Hinv pix Hin)) as [H3 Hsub].
    split; [exact H3|].
    rewrite Forall_forall in Hwf.
    destruct (Hwf xy (nth_error_In _ _ Hxy)) as [_ Hu8].
    rewrite Forall_forall in Hu8. apply Forall_forall. auto. }
  exists (Tensor 3 (map (map F32.of_Z) (concat ts))).
  split; [|split; [reflexivity|split; [|split; [|split]]]].
  - unfold pixel_sample, bind, lift, ret. now rewrite Hts, Hcat.
  - simpl. rewrite length_map, (@concat_const_length _ 5 ts H5). lia.
  - unfold wf_tensor. simpl. apply Forall_forall. intros r Hr.
    apply in_map_iff in Hr as [pix [<- Hin]]. rewrite length_map.
    now apply Hpix.
  - unfold nan_free. simpl. apply Forall_forall. intros r Hr.
    apply in_map_iff in Hr as [pix [<- Hin]].
    now apply row_nan_of_uint8, Hpix.
  - intros k j Hk Hj.
    destruct (nth_error ts k) as [rows|] eqn:Erows;
      [|apply nth_error_None in Erows; lia].
    destruct (HF k rows Erows) as [xy [v [Hxy [Hv [Hgat Hl]]]]].
    destruct (nth_error rows j) as [pix|] eqn:Epix;
      [|apply nth_error_None in Epix; lia].
    destruct (mapM_nth_error _ _ _ Hgat Epix) as [i [Hi Hix]].
    rewrite nth_error_firstn in Hi.
    destruct (Nat.ltb_spec j 5); [|lia].
    exists xy, v, i, pix. repeat split; auto.
    cbn [data]. rewrite nth_error_map.
    rewrite (@concat_const_nth_error _ 5 ts H5 k j rows Erows Hj), Epix.
    reflexivity.
Qed.

(** X13. For a non-empty training set of 32x32x3 [uint8] images the pixel
    sample of line 65 has five rows per image, 5 * len rows of three
    channels in all, and none of them has a NaN; row [5 k + j] is the pixel
    of image [k] at entry [j] of the permutation drawn for that image, and
    one permutation per image is consumed. *)
Theorem pixel_sample_rows (train : base_dataset) (g : rng) :
  train <> [] ->
  Forall (fun xy => wf_image (fst xy)) train ->
  (forall j, j < length train -> Permutation (g j) (arange (32 * 32))) ->
  exists px,
    pixel_sample train g = Some (px, fun j => g (length train + j)) /\
    dim px = 3 /\ length (data px) = 5 * length train /\
    wf_tensor px /\ nan_free px /\
    forall k j, k < length train -> j < 5 ->
      exists xy v i pix,
        nth_error train k = Some xy /\ view3 (fst xy) = Some v /\
        nth_error (g k) j = Some i /\ index1 v i = Some pix /\
        nth_error (data px) (5 * k + j) = Some (map F32.of_Z pix).
Proof. exact (@pixel_sample_spec train g). Qed.

Lemma ex_image_wf : wf_image ex_image.
Proof.
  split; [exact ex_image_length|].
  unfold ex_image. apply Forall_forall. intros z Hz.
  apply in_map_iff in Hz as [w [<- _]]. unfold uint8.
  apply Z.mod_pos_bound. lia.
Qed.

Lemma pixel_sample_rows_witness :
  exists px,
    pixel_sample ex_base ex_rng1024
      = Some (px, fun j => ex_rng1024 (length ex_base + j)) /\
    dim px = 3 /\ length (data px) = 5 * length ex_base /\
    wf_tensor px /\ nan_free px /\
    forall k j, k < length ex_base -> j < 5 ->
      exists xy v i pix,
        nth_error ex_base k = Some xy /\ view3 (fst xy) = Some v /\
        nth_error (ex_rng1024 k) j = Some i /\ index1 v i = Some pix /\
        nth_error (data px) (5 * k + j) = Some (map F32.of_Z pix).
Proof.
  apply (@pixel_sample_rows ex_base ex_rng1024).
  - discriminate.
  - constructor; [exact ex_image_wf | constructor].
  - intros j _. apply Permutation_sym, Permutation_rev.
Defined.

Lemma pluck_rgb_wrong_size (x : image) (g : rng) :
  length x <> 3 * (32 * 32) -> pluck_rgb x g = None.
Proof.
  intros H. unfold pluck_rgb, bind, lift.
  now rewrite (@view_rows_None _ (32 * 32) x H).
Qed.

Lemma mapM_M_raises (A B : Type) (f : A -> M B) (l : list A) :
  Exists (fun a => forall g, f a g = None) l ->
  forall g, mapM_M f l g = None.
Proof.
  induction 1 as [a l Hbad|a l _ IH]; intros g; simpl; unfold bind.
  - now rewrite Hbad.
  - destruct (f a g) as [[b g1]|]; [|reflexivity]. now rewrite IH.
Qed.

(** X14. The pixel sample raises when the training set is empty
    ([torch.cat] of no tensor) and when any image does not have exactly
    32*32*3 entries ([view(32*32, 3)]), whatever the generator draws. *)
Theorem pixel_sample_raises (train : base_dataset) (g : rng) :
  train = [] \/ Exists (fun xy => length (fst xy) <> 3 * (32 * 32)) train ->
  pixel_sample train g = None.
Proof.
  intros [->|H]; [reflexivity|].
  unfold pixel_sample, bind.
  rewrite mapM_M_raises; [reflexivity|].
  eapply Exists_impl; [|exact H].
  intros xy Hbad g0. now apply pluck_rgb_wrong_size.
Qed.

Lemma pixel_sample_raises_witness :
  pixel_sample [(ex_image, 0%Z); ([1; 2; 3]%Z, 1%Z)] ex_rng1024 = None.
Proof.
  apply (@pixel_sample_raises [(ex_image, 0%Z); ([1; 2; 3]%Z, 1%Z)] ex_rng1024).
  right. apply Exists_cons_tl, Exists_cons_hd. simpl.
  intros H. apply (f_equal (fun n => n <=? 3)) in H. discriminate H.
Defined.

Lemma kmeans_returns (x : tensor) (K niter : nat) (g : rng) :
  wf_tensor x -> nan_free x ->
  1 <= K -> K <= length (data x) ->
  rng_ok (length (data x)) g ->
  exists c g',
    kmeans x K niter g = Some (c, g') /\
    length (data c) = K /\ dim c = dim x /\ wf_tensor c /\ nan_free c.
Proof.
  intros Hwf Hnan HK HKN Hg.
  destruct (kmeans_init x HKN Hg) as [c0 [Hc0 [Hlen Hin]]].
  destruct (@kmeans_loop_total x K niter Hwf Hnan HK HKN
              (Tensor (dim x) c0) (fun j => g (S j)))
    as [c [g' [Hloop [Hd [Hl [Hw Hn]]]]]]; auto using rng_ok_tail.
  - unfold wf_tensor in *. simpl. rewrite Forall_forall in *. auto.
  - unfold nan_free in *. simpl. rewrite Forall_forall in *. auto.
  - exists c, g'. split; [|auto].
    unfold kmeans, bind, randperm, lift. now rewrite Hc0.
Qed.

(** X15. The reference flow from the raw training set: with at least 103
    training images (so that 5 pixels per image are at least 512 samples),
    all 32x32x3 [uint8], the run of lines 64-117 returns; the codebook has
    512 three-dimensional rows without NaN and is shared by the training and
    the test adapter, the model is configured with vocabulary 512 and block
    size 1023, and every item of the training adapter can then be fetched:
    two sequences of 1023 tokens, all below 512. *)
Theorem main_reference_flow (train test : base_dataset) (g : rng) :
  103 <= length train ->
  Forall (fun xy => wf_image (fst xy)) train ->
  (forall j, j < length train -> Permutation (g j) (arange (32 * 32))) ->
  rng_ok (5 * length train) (fun j => g (length train + j)) ->
  exists tr te cfg g',
    main train test g = Some ((tr, te, cfg), g') /\
    length (data (clusters tr)) = 512 /\ dim (clusters tr) = 3 /\
    wf_tensor (clusters tr) /\ nan_free (clusters tr) /\
    clusters te = clusters tr /\
    cfg = MkGPTConfig 512 1023 /\
    forall idx img y g0,
      index1 train idx = Some (img, y) ->
      exists inp tgt,
        ImageDataset_getitem tr idx g0 = Some ((inp, tgt), g0) /\
        length inp = 1023 /\ length tgt = 1023 /\
        Forall (fun t => t < 512) inp /\ Forall (fun t => t < 512) tgt.
Proof.
  intros Hlen Hwf Hg1 Hg2.
  assert (Hne : train <> []) by (destruct train; [simpl in Hlen; lia | discriminate]).
  destruct (@pixel_sample_spec train g Hne Hwf Hg1)
    as [px [Hpx [Hdim [Hrows [Hpwf [Hpnan _]]]]]].
  rewrite <- Hrows in Hg2.
  destruct (@kmeans_returns px 512 8 (fun j => g (length train + j))
              Hpwf Hpnan)
    as [C [g' [HC [HCl [HCd [HCwf HCnan]]]]]]; [lia | lia | exact Hg2 |].
  exists (ImageDataset_init train C None), (ImageDataset_init test C None),
         (mconf (ImageDataset_init train C None)), g'.
  assert (HC3 : dim C = 3) by congruence.
  split; [|split; [exact HCl|split; [exact HC3|split; [exact HCwf|
           split; [exact HCnan|split; [reflexivity|split]]]]]].
  - unfold main, bind. rewrite Hpx. unfold driver, bind. rewrite HC.
    reflexivity.
  - unfold mconf. cbn [ImageDataset_init vocab_size block_size].
    rewrite HCl. reflexivity.
  - intros idx img y g0 Hidx.
    assert (Himg : length img = 3 * (32 * 32)).
    { rewrite Forall_forall in Hwf.
      destruct (Hwf (img, y) (index1_In _ _ Hidx)) as [H _]. exact H. }
    destruct (@encode_total (ImageDataset_init train C None) idx img y
                (32 * 32) g0 Hidx Himg (Permutation_refl _) HC3)
      as [a [Ha Hla]].
    { cbn [ImageDataset_init clusters]. lia. }
    pose proof (encode_tokens_bound _ _ _ Ha) as Hb.
    cbn [ImageDataset_init clusters] in Hb. rewrite HCl in Hb.
    rewrite Forall_forall in Hb.
    exists (removelast a), (tl a). split; [|split; [|split; [|split]]].
    + unfold ImageDataset_getitem, bind. rewrite Ha. reflexivity.
    + rewrite removelast_firstn_len, length_firstn. lia.
    + destruct a; simpl in *; lia.
    + apply Forall_forall. intros t Ht. now apply Hb, In_removelast.
    + apply Forall_forall. intros t Ht. now apply Hb, In_tl.
Qed.

Lemma ex_train_length : length ex_train = 103.
Proof. apply repeat_length. Qed.

Lemma main_reference_flow_witness :
  exists tr te cfg g',
    main ex_train ex_base ex_rng_main = Some ((tr, te, cfg), g') /\
    length (data (clusters tr)) = 512 /\ dim (clusters tr) = 3 /\
    wf_tensor (clusters tr) /\ nan_free (clusters tr) /\
    clusters te = clusters tr /\
    cfg = MkGPTConfig 512 1023 /\
    forall idx img y g0,
      index1 ex_train idx = Some (img, y) ->
      exists inp tgt,
        ImageDataset_getitem tr idx g0 = Some ((inp, tgt), g0) /\
        length inp = 1023 /\ length tgt = 1023 /\
        Forall (fun t => t < 512) inp /\ Forall (fun t => t < 512) tgt.
Proof.
  apply (@main_reference_flow ex_train ex_base ex_rng_main).
  - rewrite ex_train_length. apply Nat.le_refl.
  - apply Forall_forall. intros xy Hxy.
    apply repeat_spec in Hxy. subst xy. exact ex_image_wf.
  - rewrite ex_train_length. intros j Hj. unfold ex_rng_main.
    destruct (Nat.ltb_spec j 103); [|lia].
    apply Permutation_sym, Permutation_rev.
  - rewrite ex_train_length. intros j. unfold ex_rng_main.
    destruct (Nat.ltb_spec (103 + j) 103); [lia|].
    apply Permutation_sym, (Permutation_rev (arange 515)).
Defined.

(** X16. The preview of lines 100-105 is well defined for every 32x32x3
    image and every non-empty three-dimensional codebook: the lookup
    returns 1024 indices and [C[ix]] never reads outside the codebook, so
    the reconstruction has 1024 rows, row [j] being the codebook entry that
    the lookup chose for pixel [j]. *)
Theorem reconstruct_well_formed (C : tensor) (x : image) :
  length x = 3 * (32 * 32) ->
  dim C = 3 -> 0 < length (data C) ->
  exists v ix rec,
    view3 x = Some v /\
    nearest (Tensor 3 (map (map F32.of_Z) v)) C = Some ix /\
    reconstruct C x = Some rec /\
    length ix = 32 * 32 /\ length rec = 32 * 32 /\
    forall j k, nth_error ix j = Some k ->
      k < length (data C) /\ nth_error rec j = nth_error (data C) k.
Proof.
  intros Hx Hdim HK.
  destruct (view_rows_total (32 * 32) x Hx) as [v Hv].
  destruct (view_rows_Some _ _ Hv) as [Hv3 [Hlv _]].
  destruct (@nearest_total (Tensor 3 (map (map F32.of_Z) v)) C) as [ix Hix].
  { simpl. rewrite Hdim. reflexivity. }
  { exact HK. }
  destruct (nearest_rows _ _ Hix) as [Hlix Hrows].
  simpl in Hlix. rewrite length_map, Hlv in Hlix.
  assert (Hbound : forall j k, nth_error ix j = Some k -> k < length (data C)).
  { intros j k Hj. destruct (Hrows j k Hj) as [xr [_ Harg]].
    apply argmin_row_spec in Harg as [Hlt _].
    now rewrite length_map in Hlt. }
  destruct (@gather_total _ (data C) (map Z.of_nat ix)) as [rec Hrec].
  { apply Forall_forall. intros z Hz.
    apply in_map_iff in Hz as [k [<- Hk]].
    apply In_nth_error in Hk as [j Hj]. specialize (Hbound j k Hj). lia. }
  exists v, ix, rec. split; [exact Hv3|]. split; [exact Hix|].
  split; [|split; [exact Hlix|split]].
  - unfold reconstruct. now rewrite Hv, Hix.
  - now rewrite (gather_length _ _ Hrec), length_map.
  - intros j k Hj. split; [exact (Hbound j k Hj)|].
    assert (Hj' : nth_error (map Z.of_nat ix) j = Some (Z.of_nat k))
      by (now rewrite nth_error_map, Hj).
    rewrite (gather_nth_error _ _ _ Hrec Hj'). apply index1_of_nat.
Qed.

Lemma reconstruct_well_formed_witness :
  exists v ix rec,
    view3 ex_image = Some v /\
    nearest (Tensor 3 (map (map F32.of_Z) v)) ex_codebook = Some ix /\
    reconstruct ex_codebook ex_image = Some rec /\
    length ix = 32 * 32 /\ length rec = 32 * 32 /\
    forall j k, nth_error ix j = Some k ->
      k < length (data ex_codebook) /\
      nth_error rec j = nth_error (data ex_codebook) k.
Proof.
  apply (@reconstruct_well_formed ex_codebook ex_image ex_image_length).
  - reflexivity.
  - apply Nat.lt_0_succ.
Defined.

(** * The histogram of the first token *)

Lemma set_nth_length (A : Type) (l : list A) : forall n a,
  length (set_nth l n a) = length l.
Proof.
  induction l as [|b l IH]; intros [|n] a; simpl; auto.
Qed.

Lemma set_nth_nth_error (A : Type) (l : list A) : forall n a u,
  n < length l ->
  nth_error (set_nth l n a) u = if u =? n then Some a else nth_error l u.
Proof.
  induction l as [|b l IH]; intros [|n] a [|u] Hn; simpl in *; try lia; auto.
  apply IH. lia.
Qed.

Lemma bump_Some (counts : list float) (t : nat) counts' :
  bump counts t = Some counts' ->
  t < length counts /\ length counts' = length counts /\
  exists c, nth_error counts t = Some c /\
    forall u, nth_error counts' u =
      if u =? t then Some (F32.add c (F32.of_Z 1)) else nth_error counts u.
Proof.
  unfold bump. destruct (nth_error counts t) as [c|] eqn:E; [|discriminate].
  intros H. injection H as <-.
  assert (Ht : t < length counts)
    by (apply nth_error_Some; rewrite E; discriminate).
  split; [exact Ht|]. split; [apply set_nth_length|].
  exists c. split; [reflexivity|]. intros u. now apply set_nth_nth_error.
Qed.

(** Adding one to a count is exact up to 5000 (checked on every value). *)
Lemma add_one_exact (n : Z) :
  (1 <= n <= 5000)%Z ->
  F32.add (F32.of_Z n) (F32.of_Z 1) = F32.of_Z (n + 1).
Proof.
  intros Hn.
  assert (Hall : forallb (fun n => if float_eq_dec
                                        (F32.add (F32.of_Z n) (F32.of_Z 1))
                                        (F32.of_Z (n + 1))
                                   then true else false)
                   (arange (50 * 100 + 1)) = true)
    by (vm_compute; reflexivity).
  rewrite forallb_forall in Hall.
  assert (Hin : In n (arange (50 * 100 + 1))) by (apply arange_In; lia).
  specialize (Hall n Hin).
  now destruct (float_eq_dec (F32.add (F32.of_Z n) (F32.of_Z 1))
                             (F32.of_Z (n + 1))).
Qed.

Lemma getitem_state (ds : ImageDataset) (idx : Z) g r g' :
  ImageDataset_getitem ds idx g = Some (r, g') -> g' = g.
Proof.
  destruct (getitem_pure ds idx) as [o Ho]. rewrite Ho.
  intros H. now apply lift_Some in H.
Qed.

Lemma count_first_tokens_spec (ds : ImageDataset) (rp : list Z) :
  forall ixs counts seen g counts' g',
    (forall u, u < length counts ->
       nth_error counts u
         = Some (F32.of_Z (1 + Z.of_nat (count_occ Nat.eq_dec seen u)))) ->
    (Z.of_nat (length seen + length ixs) <= 5000)%Z ->
    count_first_tokens ds rp ixs counts g = Some (counts', g') ->
    g' = g /\ length counts' = length counts /\
    exists tokens,
      Forall2 (first_token_of ds rp g) ixs tokens /\
      Forall (fun t => t < length counts) tokens /\
      forall u, u < length counts ->
        nth_error counts' u
          = Some (F32.of_Z
                    (1 + Z.of_nat (count_occ Nat.eq_dec (seen ++ tokens) u))).
Proof.
  induction ixs as [|i ixs IH]; intros counts seen g counts' g' Hinv Hb H.
  - simpl in H. unfold ret in H. injection H as <- <-.
    split; [reflexivity|]. split; [reflexivity|].
    exists []. split; [constructor|]. split; [constructor|].
    intros u Hu. rewrite app_nil_r. now apply Hinv.
  - simpl in H.
    apply bind_Some in H as [idx [g1 [Hidx H]]].
    apply lift_Some in Hidx as [Hidx ->].
    apply bind_Some in H as [[inp tgt] [g2 [Hitem H]]].
    pose proof (getitem_state _ _ _ Hitem) as ->.
    apply bind_Some in H as [t [g3 [Ht H]]].
    apply lift_Some in Ht as [Ht ->].
    apply bind_Some in H as [counts1 [g4 [Hbump H]]].
    apply lift_Some in Hbump as [Hbump ->].
    destruct (bump_Some _ _ Hbump) as [Htlt [Hl1 [c [Hc Hnth]]]].
    assert (Hinv1 : forall u, u < length counts1 ->
              nth_error counts1 u
                = Some (F32.of_Z
                          (1 + Z.of_nat
                                 (count_occ Nat.eq_dec (seen ++ [t]) u)))).
    { intros u Hu. rewrite Hl1 in Hu. rewrite Hnth, count_occ_app.
      change (count_occ Nat.eq_dec [t] u)
        with (if Nat.eq_dec t u then 1 else 0).
      cbn [length] in Hb.
      destruct (Nat.eqb_spec u t) as [->|Hne].
      - assert (Ec : c = F32.of_Z
                            (1 + Z.of_nat (count_occ Nat.eq_dec seen t)))
          by (pose proof (Hinv t Htlt); congruence).
        rewrite Ec.
        destruct (Nat.eq_dec t t) as [_|]; [|contradiction].
        pose proof (count_occ_bound Nat.eq_dec t seen) as Hcb.
        rewrite add_one_exact by lia. do 2 f_equal. lia.
      - destruct (Nat.eq_dec t u) as [->|_]; [contradiction|].
        rewrite Hinv by exact Hu. do 2 f_equal. lia. }
    assert (Hb1 : (Z.of_nat (length (seen ++ [t]) + length ixs) <= 5000)%Z).
    { rewrite length_app. cbn [length] in *. lia. }
    destruct (IH counts1 (seen ++ [t]) g counts' g' Hinv1 Hb1 H)
      as [Hg [Hl [tokens [HF [Hlt Hfin]]]]].
    split; [exact Hg|]. split; [congruence|].
    exists (t :: tokens). split; [|split].
    + constructor; [|exact HF]. now exists idx, inp, tgt.
    + constructor; [exact Htlt|]. now rewrite <- Hl1.
    + intros u Hu. rewrite <- Hl1 in Hu. rewrite (Hfin u Hu).
      now rewrite <- app_assoc.
Qed.

(** X17. When the estimation loop returns (with [nest] at most 5000, the
    value of the script), the counts are an exact histogram with smoothing:
    the entry of token [t] is the float of the integer 1 + the number of the
    [nest] sampled items whose first token is [t], without rounding; the
    sampled items are those at the first [nest] entries of one fresh
    permutation, and every first token is below [ncluster]. *)
Theorem first_token_counts_exact (ds : ImageDataset) (ncluster nest : nat)
  (g : rng) counts g' :
  (Z.of_nat nest <= 5000)%Z ->
  first_token_counts ds ncluster nest g = Some (counts, g') ->
  length counts = ncluster /\
  exists tokens,
    Forall2 (first_token_of ds (g 0) (fun j => g (S j))) (seq 0 nest) tokens /\
    Forall (fun t => t < ncluster) tokens /\
    forall t, t < ncluster ->
      nth_error counts t
        = Some (F32.of_Z (1 + Z.of_nat (count_occ Nat.eq_dec tokens t))).
Proof.
  intros Hn H. unfold first_token_counts in H.
  apply bind_Some in H as [rp [g1 [Hrp H]]].
  unfold randperm in Hrp. injection Hrp as <- <-.
  assert (Hinv : forall u, u < length (repeat (F32.of_Z 1) ncluster) ->
            nth_error (repeat (F32.of_Z 1) ncluster) u
              = Some (F32.of_Z (1 + Z.of_nat (count_occ Nat.eq_dec [] u)))).
  { intros u Hu. rewrite repeat_length in Hu.
    rewrite nth_error_repeat by exact Hu. reflexivity. }
  assert (Hb : (Z.of_nat (length (@nil nat) + length (seq 0 nest)) <= 5000)%Z)
    by (rewrite length_seq; cbn [length]; lia).
  destruct (@count_first_tokens_spec ds (g 0) (seq 0 nest)
              (repeat (F32.of_Z 1) ncluster) [] (fun j => g (S j)) counts g'
              Hinv Hb H)
    as [_ [Hl [tokens [HF [Hlt Hfin]]]]].
  rewrite repeat_length in Hl, Hlt, Hfin.
  split; [exact Hl|]. exists tokens. repeat split; auto.
Qed.

Lemma ex_first_token_counts :
  first_token_counts (ImageDataset_init ex_base ex_codebook None) 2 1
    (fun _ => [0%Z])
  = Some ([F32.of_Z 2; F32.of_Z 1], fun _ => [0%Z]).
Proof. vm_compute. reflexivity. Qed.

Lemma first_token_counts_exact_witness :
  let ds := ImageDataset_init ex_base ex_codebook None in
  let g : rng := fun _ => [0%Z] in
  let counts := [F32.of_Z 2; F32.of_Z 1] in
  length counts = 2 /\
  exists tokens,
    Forall2 (first_token_of ds (g 0) (fun j => g (S j))) (seq 0 1) tokens /\
    Forall (fun t => t < 2) tokens /\
    forall t, t < 2 ->
      nth_error counts t
        = Some (F32.of_Z (1 + Z.of_nat (count_occ Nat.eq_dec tokens t))).
Proof.
  intros ds g counts.
  apply (@first_token_counts_exact ds 2 1 g counts (fun _ => [0%Z])).
  - lia.
  - exact ex_first_token_counts.
Defined.

Lemma count_first_tokens_raises (ds : ImageDataset) (rp : list Z) :
  forall n s counts g,
    s <= length rp -> length rp < s + n ->
    count_first_tokens ds rp (seq s n) counts g = None.
Proof.
  induction n as [|n IH]; intros s counts g Hs Hn; [lia|].
  cbn [seq count_first_tokens]. unfold bind at 1.
  destruct (Nat.eq_dec s (length rp)) as [->|Hne].
  - unfold lift. now rewrite (proj2 (nth_error_None rp (length rp)) (Nat.le_refl _)).
  - destruct (lift (nth_error rp s) g) as [[idx g1]|]; [|reflexivity].
    unfold bind at 1.
    destruct (ImageDataset_getitem ds idx g1) as [[item g2]|]; [|reflexivity].
    unfold bind at 1.
    destruct (lift (hd_error (fst item)) g2) as [[t g3]|]; [|reflexivity].
    unfold bind at 1.
    destruct (lift (bump counts t) g3) as [[counts1 g4]|]; [|reflexivity].
    apply IH; lia.
Qed.

(** X18. The estimation loop raises when the adapter has fewer than [nest]
    items: the permutation [rp] has one entry per item, and [rp[i]] is read
    for every [i] below [nest]. *)
Theorem first_token_counts_raises (ds : ImageDataset) (ncluster nest : nat)
  (g : rng) :
  rng_ok (ImageDataset_len ds) g ->
  ImageDataset_len ds < nest ->
  first_token_counts ds ncluster nest g = None.
Proof.
  intros Hg Hlt. unfold first_token_counts, bind, randperm.
  assert (Hl : length (g 0) = ImageDataset_len ds)
    by (rewrite (Permutation_length (Hg 0)); apply arange_length).
  apply count_first_tokens_raises; lia.
Qed.

Lemma first_token_counts_raises_witness :
  first_token_counts (ImageDataset_init ex_base ex_codebook None) 2 3
    (fun _ => [0%Z]) = None.
Proof.
  apply (@first_token_counts_raises
           (ImageDataset_init ex_base ex_codebook None) 2 3 (fun _ => [0%Z])).
  - intros j. apply Permutation_refl.
  - unfold ImageDataset_len. simpl. lia.
Defined.
